(** * wiki_mapper: partitioned crawl state, batch scheduler and shard merger

    A shallow embedding of [main.py], [main_multi_machine.py] and
    [merge_databases.py].  The SQLite tables are lists of rows kept in rowid
    order, every SQL statement of the sources is a function on the store, and
    a connection keeps the committed and the uncommitted store apart so that
    [commit] and [rollback] mean what they mean in the sources. *)

From Stdlib Require Import ZArith List String Ascii Bool Lia DecimalString.
From Stdlib Require Import Sorted Permutation.
From Stdlib Require DecimalPos DecimalZ.
Import ListNotations.
Open Scope string_scope.
Open Scope list_scope.
Open Scope Z_scope.

(** A Python [str] title is represented by the bytes of its UTF-8 encoding,
    which is what Rocq's [string] holds; [title.encode('utf-8')] then reads
    the bytes off. *)
Definition title := string.

(* ------------------------------------------------------------------ *)
(** ** hashlib.md5 (RFC 1321), on byte lists *)

Module MD5.

Definition w32 (x : Z) : Z := x mod 2 ^ 32.

Definition rotl32 (x c : Z) : Z :=
  w32 (Z.lor (Z.shiftl x c) (Z.shiftr x (32 - c))).

Definition not32 (x : Z) : Z := Z.lxor x 0xffffffff.

Definition shifts : list Z :=
  [7; 12; 17; 22; 7; 12; 17; 22; 7; 12; 17; 22; 7; 12; 17; 22;
   5; 9; 14; 20; 5; 9; 14; 20; 5; 9; 14; 20; 5; 9; 14; 20;
   4; 11; 16; 23; 4; 11; 16; 23; 4; 11; 16; 23; 4; 11; 16; 23;
   6; 10; 15; 21; 6; 10; 15; 21; 6; 10; 15; 21; 6; 10; 15; 21].

Definition sines : list Z :=
  [0xd76aa478; 0xe8c7b756; 0x242070db; 0xc1bdceee;
   0xf57c0faf; 0x4787c62a; 0xa8304613; 0xfd469501;
   0x698098d8; 0x8b44f7af; 0xffff5bb1; 0x895cd7be;
   0x6b901122; 0xfd987193; 0xa679438e; 0x49b40821;
   0xf61e2562; 0xc040b340; 0x265e5a51; 0xe9b6c7aa;
   0xd62f105d; 0x02441453; 0xd8a1e681; 0xe7d3fbc8;
   0x21e1cde6; 0xc33707d6; 0xf4d50d87; 0x455a14ed;
   0xa9e3e905; 0xfcefa3f8; 0x676f02d9; 0x8d2a4c8a;
   0xfffa3942; 0x8771f681; 0x6d9d6122; 0xfde5380c;
   0xa4beea44; 0x4bdecfa9; 0xf6bb4b60; 0xbebfbc70;
   0x289b7ec6; 0xeaa127fa; 0xd4ef3085; 0x04881d05;
   0xd9d4d039; 0xe6db99e5; 0x1fa27cf8; 0xc4ac5665;
   0xf4292244; 0x432aff97; 0xab9423a7; 0xfc93a039;
   0x655b59c3; 0x8f0ccc92; 0xffeff47d; 0x85845dd1;
   0x6fa87e4f; 0xfe2ce6e0; 0xa3014314; 0x4e0811a1;
   0xf7537e82; 0xbd3af235; 0x2ad7d2bb; 0xeb86d391].

(** The four chaining words A, B, C, D. *)
Record regs := Regs { rA : Z; rB : Z; rC : Z; rD : Z }.

Definition init : regs :=
  Regs 0x67452301 0xefcdab89 0x98badcfe 0x10325476.

(** Little-endian value of a byte list. *)
Fixpoint le_value (bs : list Z) : Z :=
  match bs with
  | [] => 0
  | b :: bs' => b + 256 * le_value bs'
  end.

(** Big-endian value of a byte list: [int(hexdigest, 16)]. *)
Definition be_value (bs : list Z) : Z :=
  fold_left (fun acc b => 256 * acc + b) bs 0.

(** The [n] low bytes of [x], least significant first. *)
Fixpoint le_bytes (n : nat) (x : Z) : list Z :=
  match n with
  | O => []
  | S n' => x mod 256 :: le_bytes n' (x / 256)
  end.

(** Message followed by 0x80, zeros up to 56 mod 64, and the bit length
    as 8 little-endian bytes. *)
Definition pad (msg : list Z) : list Z :=
  let len := Z.of_nat (List.length msg) in
  let zeros := Z.to_nat ((55 - len) mod 64) in
  msg ++ [0x80] ++ repeat 0 zeros ++ le_bytes 8 ((8 * len) mod 2 ^ 64).

(** Cut a list into consecutive pieces of [n] elements; [k] bounds the
    number of pieces. *)
Fixpoint pieces {A} (n k : nat) (l : list A) : list (list A) :=
  match k with
  | O => []
  | S k' =>
      match l with
      | [] => []
      | _ => firstn n l :: pieces n k' (skipn n l)
      end
  end.

Definition words (block : list Z) : list Z :=
  map le_value (pieces 4 16 block).

Definition step (m : list Z) (r : regs) (i : Z) : regs :=
  let '(Regs a b c d) := r in
  let '(f, g) :=
    if i <? 16 then (Z.lor (Z.land b c) (Z.land (not32 b) d), i)
    else if i <? 32 then
      (Z.lor (Z.land d b) (Z.land (not32 d) c), (5 * i + 1) mod 16)
    else if i <? 48 then (Z.lxor (Z.lxor b c) d, (3 * i + 5) mod 16)
    else (Z.lxor c (Z.lor b (not32 d)), (7 * i) mod 16) in
  let k := nth (Z.to_nat i) sines 0 in
  let s := nth (Z.to_nat i) shifts 0 in
  let f' := w32 (f + a + k + nth (Z.to_nat g) m 0) in
  Regs d (w32 (b + rotl32 f' s)) b c.

Definition rounds : list Z := map Z.of_nat (seq 0 64).

Definition compress (r : regs) (block : list Z) : regs :=
  let r' := fold_left (step (words block)) rounds r in
  Regs (w32 (rA r + rA r')) (w32 (rB r + rB r'))
       (w32 (rC r + rC r')) (w32 (rD r + rD r')).

Definition digest (msg : list Z) : list Z :=
  let p := pad msg in
  let r := fold_left compress (pieces 64 (List.length p) p) init in
  le_bytes 4 (rA r) ++ le_bytes 4 (rB r)
    ++ le_bytes 4 (rC r) ++ le_bytes 4 (rD r).

End MD5.

(* ------------------------------------------------------------------ *)
(** ** Hash partitioning ([main_multi_machine.py]) *)

Module Partition.

Definition encode_utf8 (t : title) : list Z :=
  map (fun c => Z.of_N (N_of_ascii c)) (list_ascii_of_string t).

(** [int(hashlib.md5(title.encode('utf-8')).hexdigest(), 16)] *)
Definition get_article_hash (t : title) : Z :=
  MD5.be_value (MD5.digest (encode_utf8 t)).

(** [(article_hash % self.total_machines) == self.machine_id].  Python's
    [%] with a positive divisor is [Z.modulo]; a zero divisor raises
    there and is outside what the theorems below cover. *)
Definition should_process_article
    (machine_id total_machines : Z) (t : title) : bool :=
  let article_hash := get_article_hash t in
  (article_hash mod total_machines) =? machine_id.

(** The machine index of a title, as [should_process_article] computes
    it before comparing. *)
Definition assign (t : title) (total_machines : Z) : Z :=
  get_article_hash t mod total_machines.

End Partition.

(* ------------------------------------------------------------------ *)
(** ** The SQLite store and the SQL statements of the three programs *)

Module Store.

(** [articles(id INTEGER PRIMARY KEY AUTOINCREMENT, title TEXT UNIQUE NOT
    NULL, processed BOOLEAN DEFAULT FALSE, last_updated TIMESTAMP DEFAULT
    CURRENT_TIMESTAMP)]; timestamps are seconds. *)
Record article := Article {
  article_id : Z;
  article_title : title;
  processed : bool;
  last_updated : Z
}.

(** [links(id INTEGER PRIMARY KEY AUTOINCREMENT, from_article_id,
    to_article_title, UNIQUE(from_article_id, to_article_title))]. *)
Record link := Link {
  link_id : Z;
  from_article_id : Z;
  to_article_title : title
}.

(** A database file.  Each table is the list of its rows in the order
    they were inserted; [seq_articles] and [seq_links] are the two rows of
    [sqlite_sequence].  The [progress] table is created by the schema and
    never read or written, so it has no field here. *)
Record store := Store {
  articles : list article;
  links : list link;
  seq_articles : Z;
  seq_links : Z
}.

(** What [CREATE TABLE IF NOT EXISTS] leaves in a new file. *)
Definition empty : store := Store [] [] 0 0.

Definition max_rowid {R} (rowid : R -> Z) (rows : list R) : Z :=
  fold_right (fun r m => Z.max (rowid r) m) 0 rows.

(** AUTOINCREMENT: one more than the largest rowid the table has ever
    held. *)
Definition next_rowid {R} (rowid : R -> Z) (seq : Z) (rows : list R) : Z :=
  Z.max seq (max_rowid rowid rows) + 1.

Definition has_title (t : title) (a : article) : bool :=
  String.eqb (article_title a) t.

Definition title_exists (t : title) (s : store) : bool :=
  existsb (has_title t) (articles s).

(** [INSERT OR IGNORE INTO articles (title, processed) VALUES (?, ?)],
    and with [p = false] the one-column form
    [INSERT OR IGNORE INTO articles (title) VALUES (?)].  SQLite draws the
    rowid before it checks UNIQUE(title), so an ignored insert still
    advances the sequence. *)
Definition insert_or_ignore_article
    (t : title) (p : bool) (now : Z) (s : store) : store :=
  let rowid := next_rowid article_id (seq_articles s) (articles s) in
  if title_exists t s
  then Store (articles s) (links s) rowid (seq_links s)
  else Store (articles s ++ [Article rowid t p now]) (links s)
             rowid (seq_links s).

(** [SELECT id FROM articles WHERE title = ?] followed by [fetchone()]. *)
Definition select_id (t : title) (s : store) : option Z :=
  option_map article_id (find (has_title t) (articles s)).

Definition same_link (from : Z) (to : title) (l : link) : bool :=
  (from_article_id l =? from) && String.eqb (to_article_title l) to.

Definition link_exists (from : Z) (to : title) (s : store) : bool :=
  existsb (same_link from to) (links s).

(** [INSERT OR IGNORE INTO links (from_article_id, to_article_title)
    VALUES (?, ?)]. *)
Definition insert_or_ignore_link
    (from : Z) (to : title) (s : store) : store :=
  let rowid := next_rowid link_id (seq_links s) (links s) in
  if link_exists from to s
  then Store (articles s) (links s) (seq_articles s) rowid
  else Store (articles s) (links s ++ [Link rowid from to])
             (seq_articles s) rowid.

Definition set_processed (a : article) : article :=
  Article (article_id a) (article_title a) true (last_updated a).

(** [UPDATE articles SET processed = TRUE WHERE id = ?] *)
Definition update_processed_by_id (i : Z) (s : store) : store :=
  Store (map (fun a => if article_id a =? i then set_processed a else a)
             (articles s))
        (links s) (seq_articles s) (seq_links s).

(** [UPDATE articles SET processed = TRUE
     WHERE title = ? AND processed = FALSE] *)
Definition update_processed_by_title (t : title) (s : store) : store :=
  Store (map (fun a => if has_title t a && negb (processed a)
                       then set_processed a else a)
             (articles s))
        (links s) (seq_articles s) (seq_links s).

Definition unprocessed (a : article) : bool := negb (processed a).

Definition by_id (a b : article) : Prop := article_id a <= article_id b.

(** [ORDER BY id]: a stable insertion sort on the rowid. *)
Fixpoint insert_by_id (a : article) (rows : list article) : list article :=
  match rows with
  | [] => [a]
  | b :: rows' =>
      if article_id a <=? article_id b then a :: rows
      else b :: insert_by_id a rows'
  end.

Definition order_by_id (rows : list article) : list article :=
  fold_right insert_by_id [] rows.

(** [LIMIT ?]: SQLite reads a negative limit as no limit. *)
Definition limit_rows {R} (limit : Z) (rows : list R) : list R :=
  if limit <? 0 then rows else firstn (Z.to_nat limit) rows.

(** [SELECT title FROM articles WHERE processed = FALSE
     ORDER BY id LIMIT ?] *)
Definition select_unprocessed (limit : Z) (s : store) : list title :=
  map article_title
    (limit_rows limit
       (order_by_id (filter unprocessed (articles s)))).

(** [SELECT title, processed FROM articles] *)
Definition select_title_processed (s : store) : list (title * bool) :=
  map (fun a => (article_title a, processed a)) (articles s).

(** [SELECT to_article_title FROM links WHERE from_article_id = ?] *)
Definition select_links_from (i : Z) (s : store) : list title :=
  map to_article_title
    (filter (fun l => from_article_id l =? i) (links s)).

(** [SELECT COUNT( * ) FROM articles], [... WHERE processed = TRUE],
    [SELECT COUNT( * ) FROM links] *)
Definition count_articles (s : store) : Z :=
  Z.of_nat (List.length (articles s)).
Definition count_processed (s : store) : Z :=
  Z.of_nat (List.length (filter processed (articles s))).
Definition count_links (s : store) : Z :=
  Z.of_nat (List.length (links s)).

(** The constraints of the schema (PRIMARY KEY, UNIQUE), and every link
    starting at a row of [articles]. *)
Record store_ok (s : store) : Prop := StoreOk {
  ids_unique : NoDup (map article_id (articles s));
  titles_unique : NoDup (map article_title (articles s));
  link_ids_unique : NoDup (map link_id (links s));
  link_pairs_unique :
    NoDup (map (fun l => (from_article_id l, to_article_title l)) (links s));
  links_resolved :
    forall l, In l (links s) ->
              In (from_article_id l) (map article_id (articles s))
}.

End Store.
Import Store.

(* ------------------------------------------------------------------ *)
(** ** A [sqlite3] connection: implicit transaction, commit, rollback *)

Module Conn.

(** [committed] is what the file holds, [working] what the open
    transaction has made of it; [executed] counts the statements run on
    this connection so far. *)
Record conn := Conn {
  committed : store;
  working : store;
  executed : nat
}.

(** A statement either returns or raises; the connection is there in
    both cases. *)
Inductive outcome (A : Type) : Type :=
| Ok (a : A) (c : conn)
| Raised (c : conn).
Arguments Ok {A} a c.
Arguments Raised {A} c.

Definition M (A : Type) : Type := conn -> outcome A.

Definition ret {A} (a : A) : M A := fun c => Ok a c.

Definition bind {A B} (m : M A) (k : A -> M B) : M B :=
  fun c =>
    match m c with
    | Ok a c' => k a c'
    | Raised c' => Raised c'
    end.

Definition raise {A} : M A := fun c => Raised c.

Definition connect (db : store) : conn := Conn db db 0.

(** [conn.rollback()] *)
Definition rollback (c : conn) : conn :=
  Conn (committed c) (committed c) (executed c).

(** [conn.close()]: the file keeps what was committed. *)
Definition close (c : conn) : store := committed c.

Section Faults.

(** The database may fail once: [fail_at = Some k] makes the statement
    number [k] (counted from 0, commits included) raise instead of
    running; [None] is a database that never fails. *)
Variable fail_at : option nat.

Definition fires (c : conn) : bool :=
  match fail_at with
  | Some k => Nat.eqb k (executed c)
  | None => false
  end.

(** [cursor.execute] of an INSERT or UPDATE. *)
Definition execute (f : store -> store) : M unit :=
  fun c =>
    if fires c then Raised c
    else Ok tt (Conn (committed c) (f (working c)) (S (executed c))).

(** [cursor.execute] of a SELECT, with its fetch. *)
Definition query {A} (q : store -> A) : M A :=
  fun c =>
    if fires c then Raised c
    else Ok (q (working c)) (Conn (committed c) (working c) (S (executed c))).

(** [conn.commit()] *)
Definition commit : M unit :=
  fun c =>
    if fires c then Raised c
    else Ok tt (Conn (working c) (working c) (S (executed c))).

End Faults.

(** [row[0]] on the result of [fetchone()]: a TypeError when no row
    matched. *)
Definition subscript {A} (row : option A) : M A :=
  match row with
  | Some a => ret a
  | None => raise
  end.

(** [for x in xs: body(x)] *)
Fixpoint for_each {A} (xs : list A) (body : A -> M unit) : M unit :=
  match xs with
  | [] => ret tt
  | x :: xs' => bind (body x) (fun _ => for_each xs' body)
  end.

End Conn.
Import Conn.

Notation "x <- m ;; k" := (bind m (fun x => k))
  (at level 61, m at next level, right associativity).
Notation "m ;; k" := (bind m (fun _ => k))
  (at level 61, right associativity).

(* ------------------------------------------------------------------ *)
(** ** The crawler ([main.py]) *)

Module WikiMapper.

(** [init_database]: the schema is created only where it is missing. *)
Definition init_database (file : option store) : store :=
  match file with
  | Some db => db
  | None => Store.empty
  end.

(** The transaction of [save_article_links], up to and including the
    commit. *)
Definition save_transaction
    (fail_at : option nat) (now : Z)
    (article_title : title) (links : list title) : M unit :=
  execute fail_at (insert_or_ignore_article article_title false now) ;;
  row <- query fail_at (select_id article_title) ;;
  article_id <- subscript row ;;
  for_each links
    (fun link => execute fail_at (insert_or_ignore_link article_id link)) ;;
  execute fail_at (update_processed_by_id article_id) ;;
  commit fail_at.

(** [save_article_links]: run the transaction; on any exception roll
    back; close in both cases.  [now] is CURRENT_TIMESTAMP. *)
Definition save_article_links
    (fail_at : option nat) (now : Z)
    (article_title : title) (links : list title) (db : store) : store :=
  match save_transaction fail_at now article_title links (connect db) with
  | Ok _ c => close c
  | Raised c => close (rollback c)
  end.

(** [populate_articles_table]: [executemany] of the insert over the
    titles, then commit. *)
Definition populate_articles_table
    (now : Z) (titles : list title) (db : store) : store :=
  fold_left (fun s t => insert_or_ignore_article t false now s) titles db.

(** The [sqlite3] module refuses to bind an integer outside 64 bits
    (OverflowError). *)
Definition sqlite_int (n : Z) : bool :=
  (- 2 ^ 63 <=? n) && (n <=? 2 ^ 63 - 1).

(** [get_next_unprocessed_articles]; [None] is the OverflowError. *)
Definition get_next_unprocessed_articles
    (batch_size : Z) (db : store) : option (list title) :=
  if sqlite_int batch_size then Some (select_unprocessed batch_size db)
  else None.

Record stats := Stats {
  total_articles : Z;
  processed_articles : Z;
  remaining_articles : Z;
  total_links : Z
}.

Definition get_stats (db : store) : stats :=
  Stats (count_articles db) (count_processed db)
        (count_articles db - count_processed db) (count_links db).

(** How a [batch_run] ends: the backlog is empty, an exception left the
    loop, or the loop is still going when the fuel is spent. *)
Inductive run : Type :=
| Complete (db : store)
| Aborted (db : store)
| Running (db : store).

Section Crawl.

(** The [try] block of [get_article_links] (HTTP GET, [raise_for_status],
    the regular expression, unquoting, namespace filter, underscore
    replacement, [list(set(...))]) is the external link fetcher:
    [fetch t] is the list it returns, or [None] when it raises. *)
Variable fetch : title -> option (list title).

(** Where, if anywhere, the database fails while an article is saved. *)
Variable db_fault : title -> option nat.

Variable now : Z.

(** [get_article_links]: the [except] clause logs and returns [[]]. *)
Definition get_article_links (t : title) : list title :=
  match fetch t with
  | Some links => links
  | None => []
  end.

(** The [for article in articles] loop of [batch_run].  Both calls
    catch their own exceptions, and [time.sleep] does not touch the
    store. *)
Definition process_batch (articles : list title) (db : store) : store :=
  fold_left
    (fun db article =>
       let links := get_article_links article in
       save_article_links (db_fault article) now article links db)
    articles db.

(** [batch_run]: the [while True] loop, with fuel for the number of
    batches. *)
Fixpoint batch_run (fuel : nat) (batch_size : Z) (db : store) : run :=
  match fuel with
  | O => Running db
  | S fuel' =>
      match get_next_unprocessed_articles batch_size db with
      | None => Aborted db
      | Some [] => Complete db
      | Some articles =>
          batch_run fuel' batch_size (process_batch articles db)
      end
  end.

(** [initial_run], given the titles [get_all_titles] downloaded;
    [batch_run()] is called with its default batch size. *)
Definition initial_run (fuel : nat) (titles : list title) (db : store)
  : run :=
  batch_run fuel 100 (populate_articles_table now titles db).

(** [main] *)
Definition main (fuel : nat) (titles : list title) (file : option store)
  : run :=
  let db := init_database file in
  if total_articles (get_stats db) =? 0
  then initial_run fuel titles db
  else batch_run fuel 100 db.

End Crawl.

(** The link cleaning loop of [get_article_links] *)

(** [sub in s] *)
Fixpoint contains (sub s : string) : bool :=
  String.prefix sub s
  || match s with
     | EmptyString => false
     | String _ s' => contains sub s'
     end.

Definition special_prefixes : list string :=
  ["File:"; "Category:"; "Template:"; "Help:"; "Special:"; "Wikipedia:"].

(** [s.replace('_', ' ')] *)
Fixpoint replace_underscores (s : string) : string :=
  match s with
  | EmptyString => EmptyString
  | String c s' =>
      String (if Ascii.eqb c "_" then " "%char else c) (replace_underscores s')
  end.

(** [for link in links]: decode, drop the links that name a special page,
    replace the underscores.  [unquote] is [requests.utils.unquote];
    [links] are the matches of the regular expression.  The function
    returns [list(set(clean_links))]: these strings, each once, in an order
    of its own. *)
Definition clean_links (unquote : string -> string) (links : list string)
  : list string :=
  fold_left
    (fun clean_links link =>
       let decoded := unquote link in
       if negb (existsb (fun prefix => contains prefix decoded)
                        special_prefixes)
       then clean_links ++ [replace_underscores decoded]
       else clean_links)
    links [].

End WikiMapper.

(* ------------------------------------------------------------------ *)
(** ** The multi-machine crawler ([main_multi_machine.py]) *)

Module WikiMapperMultiMachine.

(** [init_database], [get_article_links], [save_article_links],
    [get_next_unprocessed_articles] and [batch_run] repeat the text of
    [main.py]. *)
Definition save_article_links := WikiMapper.save_article_links.
Definition get_next_unprocessed_articles :=
  WikiMapper.get_next_unprocessed_articles.
Definition batch_run := WikiMapper.batch_run.

(** [populate_articles_table]: only the titles of this machine. *)
Definition populate_articles_table
    (machine_id total_machines : Z) (now : Z)
    (all_titles : list title) (db : store) : store :=
  let my_titles :=
    filter (Partition.should_process_article machine_id total_machines)
           all_titles in
  WikiMapper.populate_articles_table now my_titles db.

(** [str] of an [int], as the f-string formats it. *)
Definition str (n : Z) : string := NilZero.string_of_int (Z.to_int n).

Definition default_db_path : string := "wiki_mapping.db".

(** [args.db_path]: argparse fills in the default when the option is
    absent. *)
Definition parse_db_path (option_value : option string) : string :=
  match option_value with
  | Some p => p
  | None => default_db_path
  end.

(** The path [main] hands to the constructor, or [None] when the
    machine id is rejected and [main] returns. *)
Definition main_db_path
    (machine_id total_machines : Z) (option_value : option string)
    : option string :=
  let args_db_path := parse_db_path option_value in
  if (machine_id <? 0) || (machine_id >=? total_machines) then None
  else
    let db_path :=
      String.append "wiki_mapping_machine_"
        (String.append (str machine_id) ".db") in
    Some (if negb (String.eqb args_db_path default_db_path)
          then args_db_path else db_path).

End WikiMapperMultiMachine.

(* ------------------------------------------------------------------ *)
(** ** The shard merger ([merge_databases.py]) *)

Module DatabaseMerger.

(** What [sqlite3] finds at an existing path. *)
Inductive db_file : Type :=
| Unreadable
| Database (db : store).

(** [os.path.exists] and the file behind a path. *)
Definition filesystem := string -> option db_file.

Definition init_output_database (file : option store) : store :=
  WikiMapper.init_database file.

Section Merge.

Variable fail_at : option nat.
Variable now : Z.
Variable input : store.

(** The body of [for title, processed in articles], with the running
    [article_count]; the result is the count after this article.
    [link_count] only feeds the log.  Statements on the input
    connection are reads of [input]. *)
Definition merge_article
    (article_count : Z) (row : title * bool) : M Z :=
  let '(title, processed) := row in
  execute fail_at (insert_or_ignore_article title processed now) ;;
  (if processed
   then execute fail_at (update_processed_by_title title)
   else ret tt) ;;
  input_article_id <- subscript (select_id title input) ;;
  out_row <- query fail_at (select_id title) ;;
  output_article_id <- subscript out_row ;;
  let links := select_links_from input_article_id input in
  for_each links
    (fun to_title =>
       execute fail_at (insert_or_ignore_link output_article_id to_title)) ;;
  let article_count := article_count + 1 in
  (if article_count mod 1000 =? 0 then commit fail_at else ret tt) ;;
  ret article_count.

Fixpoint merge_articles
    (article_count : Z) (rows : list (title * bool)) : M Z :=
  match rows with
  | [] => ret article_count
  | row :: rows' =>
      n <- merge_article article_count row ;;
      merge_articles n rows'
  end.

(** The [try] block of [merge_database] after the articles are read. *)
Definition merge_transaction : M unit :=
  merge_articles 0 (select_title_processed input) ;;
  commit fail_at.

End Merge.

(** [merge_database]: the flag it returns and the output file it leaves.
    A missing path returns at once; an unreadable input raises at the
    first SELECT, inside the [try]. *)
Definition merge_database
    (fail_at : option nat) (now : Z)
    (input_db : option db_file) (output : store) : bool * store :=
  match input_db with
  | None => (false, output)
  | Some Unreadable => (false, close (rollback (connect output)))
  | Some (Database input) =>
      match merge_transaction fail_at now input (connect output) with
      | Ok _ c => (true, close c)
      | Raised c => (false, close (rollback c))
      end
  end.

(** One turn of [for db in input_databases]: the running [success_count]
    and the output file. *)
Definition merge_turn
    (db_fault : string -> option nat) (now : Z) (fs : filesystem)
    (acc : Z * store) (db : string) : Z * store :=
  let '(success_count, out) := acc in
  let '(ok, out') := merge_database (db_fault db) now (fs db) out in
  (if ok then success_count + 1 else success_count, out').

(** [merge_multiple_databases]: [success_count] and the output file. *)
Definition merge_multiple_databases
    (db_fault : string -> option nat) (now : Z) (fs : filesystem)
    (input_databases : list string) (output : store) : Z * store :=
  fold_left (merge_turn db_fault now fs) input_databases (0, output).

(** The two numbers of the closing log line, as a report: merged and
    failed inputs. *)
Definition report (success_count : Z) (input_databases : list string)
  : Z * Z :=
  (success_count, Z.of_nat (List.length input_databases) - success_count).

End DatabaseMerger.

(* ------------------------------------------------------------------ *)
(** * Vocabulary of the statements below *)

(** Two small stores used as test data. *)
Definition upsert_demo : store :=
  Store [Article 1 "Apple" true 10; Article 2 "Banana" false 11]
        [Link 1 1 "Banana"] 2 1.

Definition backlog_demo : store :=
  Store [Article 1 "Apple" false 10; Article 2 "Banana" false 11] [] 2 0.

(** Weakest precondition of a piece of connection code: [Q] holds of the
    value and the connection when it returns, [E] of the connection when it
    raises. *)
Definition wp {A} (m : M A) (Q : A -> conn -> Prop) (E : conn -> Prop)
    (c : conn) : Prop :=
  match m c with
  | Ok a c' => Q a c'
  | Raised c' => E c'
  end.

(** The connection after a statement that ran: one more executed, and the
    given committed and working stores. *)
Definition ran (c : conn) (committed' working' : store) : conn :=
  Conn committed' working' (S (executed c)).

(** The store [save_article_links] leaves when no statement fails. *)
Definition saved (now : Z) (t : title) (links : list title) (db : store)
  : store :=
  let s1 := insert_or_ignore_article t false now db in
  match select_id t s1 with
  | Some i =>
      update_processed_by_id i
        (fold_left (fun s link => insert_or_ignore_link i link s) links s1)
  | None => db
  end.

(** A title is done in a store when it has a row and every row with that
    title is processed. *)
Definition done (t : title) (s : store) : Prop :=
  title_exists t s = true
  /\ forall a, In a (articles s) -> article_title a = t -> processed a = true.

(** [s'] is [s] after more of the statements of the programs: titles keep
    their ids, done titles stay done, links stay. *)
Record grows (s s' : store) : Prop := Grows {
  grows_id : forall t i, select_id t s = Some i -> select_id t s' = Some i;
  grows_done : forall t, done t s -> done t s';
  grows_link :
    forall i to, link_exists i to s = true -> link_exists i to s' = true
}.

(** The store a [batch_run] stopped with. *)
Definition final (r : WikiMapper.run) : store :=
  match r with
  | WikiMapper.Complete db => db
  | WikiMapper.Aborted db => db
  | WikiMapper.Running db => db
  end.

(** A backlog of one title, for a link fetcher that always fails. *)
Definition stall_demo : store := Store [Article 1 "X" false 0] [] 1 0.

Definition always_fails : title -> option (list title) := fun _ => None.

Definition no_fault : title -> option nat := fun _ => None.

(** The output store after the loop body of [merge_database] has handled
    one input row, when no statement fails. *)
Definition merge_step (now : Z) (input : store) (s : store)
    (row : title * bool) : store :=
  let '(t, p) := row in
  let s1 := insert_or_ignore_article t p now s in
  let s2 := if p then update_processed_by_title t s1 else s1 in
  match select_id t input, select_id t s2 with
  | Some i, Some o =>
      fold_left (fun s to => insert_or_ignore_link o to s)
                (select_links_from i input) s2
  | _, _ => s2
  end.

(** The output store after the given input rows. *)
Definition merged (now : Z) (input : store) (rows : list (title * bool))
    (output : store) : store :=
  fold_left (merge_step now input) rows output.

(** The links that start at a title: the id by title, then the links by
    id. *)
Definition links_from (t : title) (s : store) : list title :=
  match select_id t s with
  | Some i => select_links_from i s
  | None => []
  end.

(** An input row is absorbed by an output store when merging it again
    would write nothing. *)
Definition absorbed (input : store) (s : store) (row : title * bool) : Prop :=
  title_exists (fst row) s = true
  /\ (snd row = true -> done (fst row) s)
  /\ forall i o to,
       select_id (fst row) input = Some i ->
       select_id (fst row) s = Some o ->
       In to (select_links_from i input) ->
       link_exists o to s = true.

(** A directory with one shard; every other path is missing. *)
Definition one_shard : DatabaseMerger.filesystem :=
  fun path =>
    if String.eqb path "shard0.db"
    then Some (DatabaseMerger.Database upsert_demo)
    else None.

(** Two shards that both hold "Apple": unprocessed in the first, processed
    in the second, with different ids. *)
Definition shard_x : store :=
  Store [Article 5 "Apple" false 10; Article 6 "Kiwi" true 11]
        [Link 1 5 "Pie"; Link 2 6 "Seed"] 6 2.

Definition shard_y : store :=
  Store [Article 1 "Apple" true 20]
        [Link 1 1 "Cider"; Link 2 1 "Pie"] 1 2.


(** Every link starts at a processed article. *)
Definition links_only_from_processed (s : store) : Prop :=
  forall l a,
    In l (links s) -> In a (articles s) ->
    article_id a = from_article_id l -> processed a = true.

(** A title is pending in a store when one of its rows is unprocessed. *)
Definition pending (t : title) (s : store) : Prop :=
  exists a, In a (articles s) /\ article_title a = t /\ processed a = false.

(** The batch sizes the database accepts and that ask for at least one
    row. *)
Definition usable_batch_size (n : Z) : Prop :=
  - 2 ^ 63 <= n < 2 ^ 63 /\ n <> 0.

(** The number of unprocessed rows. *)
Definition backlog (s : store) : nat :=
  List.length (filter unprocessed (articles s)).

(** A database that fails at the first statement of every save. *)
Definition save_always_fails : title -> option nat := fun _ => Some 0%nat.


(** A string without underscore and without space. *)
Definition plain (s : string) : bool :=
  forallb (fun c => negb (Ascii.eqb c "_") && negb (Ascii.eqb c " "))
          (list_ascii_of_string s).

(** The columns of an article row that no crawl pass writes. *)
Definition row_key (a : article) : Z * title * Z :=
  (article_id a, article_title a, last_updated a).

(* ------------------------------------------------------------------ *)
(** * Properties *)

(** ** Test vectors of the digest *)

Example md5_empty :
  Partition.get_article_hash "" = 0xd41d8cd98f00b204e9800998ecf8427e.
Proof. vm_compute. reflexivity. Qed.

Example md5_abc :
  Partition.get_article_hash "abc" = 0x900150983cd24fb0d6963f7d28e17f72.
Proof. vm_compute. reflexivity. Qed.

Example md5_long :
  Partition.get_article_hash
    "12345678901234567890123456789012345678901234567890123456789012345678901234567890"
  = 0x57edf4a22be3c955ac49da2e2107b67a.
Proof. vm_compute. reflexivity. Qed.

Example assign_apple : Partition.assign "Apple" 3 = 1.
Proof. vm_compute. reflexivity. Qed.


(** ** Facts about the statements *)

Section StoreFacts.

Lemma max_rowid_ge {R} (rowid : R -> Z) (rows : list R) (r : R) :
  In r rows -> rowid r <= max_rowid rowid rows.
Proof.
  induction rows as [|x rows IH]; simpl; [tauto|].
  intros [-> | H]; [lia|]. specialize (IH H). lia.
Qed.

Lemma next_rowid_fresh {R} (rowid : R -> Z) (seq : Z) (rows : list R) :
  ~ In (next_rowid rowid seq rows) (map rowid rows).
Proof.
  intro H. apply in_map_iff in H. destruct H as [r [E Hin]].
  apply (max_rowid_ge rowid) in Hin. unfold next_rowid in E. lia.
Qed.

Lemma next_rowid_above {R} (rowid : R -> Z) (seq : Z) (rows : list R) r :
  In r rows -> rowid r < next_rowid rowid seq rows.
Proof.
  intro Hin. apply (max_rowid_ge rowid) in Hin. unfold next_rowid. lia.
Qed.

Lemma title_exists_In t s :
  title_exists t s = true <-> In t (map article_title (articles s)).
Proof.
  unfold title_exists. rewrite existsb_exists, in_map_iff.
  split; intros [a [H1 H2]]; exists a.
  - unfold has_title in H2. apply String.eqb_eq in H2. tauto.
  - unfold has_title. rewrite String.eqb_eq. tauto.
Qed.

Lemma title_exists_false t s :
  title_exists t s = false <-> ~ In t (map article_title (articles s)).
Proof.
  rewrite <- title_exists_In. destruct (title_exists t s); split;
    intros; try congruence; try tauto.
Qed.

Lemma link_exists_In from to s :
  link_exists from to s = true
  <-> In (from, to)
         (map (fun l => (from_article_id l, to_article_title l)) (links s)).
Proof.
  unfold link_exists. rewrite existsb_exists, in_map_iff.
  unfold same_link.
  split; intros [l [H1 H2]]; exists l.
  - apply andb_true_iff in H2. destruct H2 as [Ha Hb].
    apply Z.eqb_eq in Ha. apply String.eqb_eq in Hb. subst. tauto.
  - inversion H1; subst. rewrite Z.eqb_refl, String.eqb_refl. tauto.
Qed.

Lemma select_id_Some t s i :
  select_id t s = Some i ->
  exists a, In a (articles s) /\ article_title a = t /\ article_id a = i.
Proof.
  unfold select_id. destruct (find (has_title t) (articles s)) as [a|] eqn:E;
    simpl; [|discriminate].
  intro H. injection H as <-. apply find_some in E. destruct E as [Hin Ht].
  exists a. apply String.eqb_eq in Ht. tauto.
Qed.

Lemma select_id_exists t s :
  title_exists t s = true -> exists i, select_id t s = Some i.
Proof.
  unfold title_exists, select_id. intro H.
  destruct (find (has_title t) (articles s)) as [a|] eqn:E.
  - exists (article_id a). reflexivity.
  - apply existsb_exists in H. destruct H as [a [Hin Ha]].
    rewrite (find_none _ _ E a Hin) in Ha. discriminate.
Qed.

Lemma select_id_None t s :
  select_id t s = None -> title_exists t s = false.
Proof.
  intro H. destruct (title_exists t s) eqn:E; [|reflexivity].
  apply select_id_exists in E. destruct E as [i E]. congruence.
Qed.

(** What each statement does to the two tables. *)

Lemma articles_insert_article t p now s :
  articles (insert_or_ignore_article t p now s)
  = if title_exists t s then articles s
    else articles s
           ++ [Article (next_rowid article_id (seq_articles s) (articles s))
                       t p now].
Proof. unfold insert_or_ignore_article. destruct (title_exists t s); reflexivity. Qed.

Lemma links_insert_article t p now s :
  links (insert_or_ignore_article t p now s) = links s.
Proof. unfold insert_or_ignore_article. destruct (title_exists t s); reflexivity. Qed.

Lemma articles_insert_link from to s :
  articles (insert_or_ignore_link from to s) = articles s.
Proof. unfold insert_or_ignore_link. destruct (link_exists from to s); reflexivity. Qed.

Lemma links_insert_link from to s :
  links (insert_or_ignore_link from to s)
  = if link_exists from to s then links s
    else links s
           ++ [Link (next_rowid link_id (seq_links s) (links s)) from to].
Proof. unfold insert_or_ignore_link. destruct (link_exists from to s); reflexivity. Qed.

Lemma title_exists_insert_article t p now s :
  title_exists t (insert_or_ignore_article t p now s) = true.
Proof.
  unfold title_exists. rewrite articles_insert_article.
  destruct (title_exists t s) eqn:E; [exact E|].
  rewrite existsb_app. simpl. unfold has_title at 2. simpl.
  rewrite String.eqb_refl. apply orb_true_iff. right. reflexivity.
Qed.

Lemma link_exists_insert_link from to s :
  link_exists from to (insert_or_ignore_link from to s) = true.
Proof.
  unfold link_exists at 1. rewrite links_insert_link.
  destruct (link_exists from to s) eqn:E; [exact E|].
  rewrite existsb_app. simpl. unfold same_link at 2. simpl.
  rewrite Z.eqb_refl, String.eqb_refl. apply orb_true_iff. right. reflexivity.
Qed.

(** [ORDER BY id] sorts, keeps every row, and leaves a table that is
    already in rowid order as it is. *)

Lemma insert_by_id_perm a rows : Permutation (a :: rows) (insert_by_id a rows).
Proof.
  induction rows as [|b rows IH]; simpl; [apply Permutation_refl|].
  destruct (article_id a <=? article_id b); [apply Permutation_refl|].
  eapply Permutation_trans; [apply perm_swap|].
  apply perm_skip. exact IH.
Qed.

Lemma order_by_id_perm rows : Permutation rows (order_by_id rows).
Proof.
  induction rows as [|a rows IH]; simpl; [apply perm_nil|].
  eapply Permutation_trans; [|apply insert_by_id_perm].
  apply perm_skip. exact IH.
Qed.

Lemma insert_by_id_sorted a rows :
  StronglySorted by_id rows -> StronglySorted by_id (insert_by_id a rows).
Proof.
  induction rows as [|b rows IH]; simpl; intro Hs.
  - constructor; constructor.
  - apply StronglySorted_inv in Hs. destruct Hs as [Hs Hb].
    destruct (article_id a <=? article_id b) eqn:E.
    + apply Z.leb_le in E. constructor.
      * constructor; assumption.
      * constructor; [exact E|].
        eapply Forall_impl; [|exact Hb]. unfold by_id. intros; lia.
    + apply Z.leb_gt in E. constructor; [apply IH; exact Hs|].
      eapply Permutation_Forall; [apply insert_by_id_perm|].
      constructor; [unfold by_id; lia | exact Hb].
Qed.

Lemma order_by_id_sorted rows : StronglySorted by_id (order_by_id rows).
Proof.
  induction rows as [|a rows IH]; simpl; [constructor|].
  apply insert_by_id_sorted. exact IH.
Qed.

Lemma order_by_id_of_sorted rows :
  StronglySorted by_id rows -> order_by_id rows = rows.
Proof.
  induction rows as [|a rows IH]; simpl; intro Hs; [reflexivity|].
  apply StronglySorted_inv in Hs. destruct Hs as [Hs Ha].
  rewrite (IH Hs). destruct rows as [|b rows]; [reflexivity|]. simpl.
  apply Forall_inv in Ha. unfold by_id in Ha.
  apply Z.leb_le in Ha. rewrite Ha. reflexivity.
Qed.

Lemma filter_sorted (f : article -> bool) rows :
  StronglySorted by_id rows -> StronglySorted by_id (filter f rows).
Proof.
  induction rows as [|a rows IH]; simpl; intro Hs; [constructor|].
  apply StronglySorted_inv in Hs. destruct Hs as [Hs Ha].
  destruct (f a); [|apply IH; exact Hs].
  constructor; [apply IH; exact Hs|].
  apply Forall_forall. intros b Hb. apply filter_In in Hb.
  rewrite Forall_forall in Ha. apply Ha. tauto.
Qed.

(** AUTOINCREMENT keeps the table in rowid order: rows are in the order
    of their insertion. *)
Lemma insert_article_keeps_order t p now s :
  StronglySorted by_id (articles s) ->
  StronglySorted by_id (articles (insert_or_ignore_article t p now s)).
Proof.
  intro Hs. rewrite articles_insert_article.
  destruct (title_exists t s); [exact Hs|].
  remember (next_rowid article_id (seq_articles s) (articles s)) as n eqn:En.
  assert (Hn : forall a, In a (articles s) -> article_id a <= n).
  { intros a Ha. subst n.
    apply Z.lt_le_incl. apply next_rowid_above. exact Ha. }
  clear En. induction (articles s) as [|b rows IH]; simpl.
  - constructor; constructor.
  - apply StronglySorted_inv in Hs. destruct Hs as [Hs Hb].
    constructor; [apply IH; [exact Hs | intros; apply Hn; right; assumption]|].
    apply Forall_app. split; [exact Hb|].
    constructor; [|constructor]. unfold by_id. simpl. apply Hn. left. reflexivity.
Qed.

Lemma count_title_unique t (rows : list article) :
  NoDup (map article_title rows) ->
  In t (map article_title rows) ->
  List.length (filter (has_title t) rows) = 1%nat.
Proof.
  induction rows as [|a rows IH]; simpl; [tauto|].
  intros Hnd Hin. inversion Hnd as [|x l Hnotin Hnd']; subst.
  unfold has_title at 1. destruct (String.eqb (article_title a) t) eqn:E.
  - apply String.eqb_eq in E. subst t. simpl. f_equal.
    destruct (filter (has_title (article_title a)) rows) as [|b l] eqn:F;
      [reflexivity|].
    exfalso. apply Hnotin.
    assert (Hb : In b (filter (has_title (article_title a)) rows))
      by (rewrite F; left; reflexivity).
    apply filter_In in Hb. destruct Hb as [Hb1 Hb2].
    unfold has_title in Hb2. apply String.eqb_eq in Hb2.
    rewrite <- Hb2. apply in_map. exact Hb1.
  - apply String.eqb_neq in E. destruct Hin as [Hin | Hin]; [congruence|].
    apply IH; assumption.
Qed.

End StoreFacts.

(** ** Partitioning *)

(** C3: for every title and every machine count N >= 1 the machine index
    (MD5 of the UTF-8 bytes, as an unsigned integer, modulo N) is a function
    of the title and N alone, lies in [0, N), and the ownership test
    [should_process_article] holds for exactly that one index, so the N
    title sets are pairwise disjoint and cover every title. *)
Theorem assign_partitions (t : title) (N : Z) (HN : 1 <= N) :
  Partition.assign t N = MD5.be_value (MD5.digest (Partition.encode_utf8 t)) mod N
  /\ (forall t', t' = t -> Partition.assign t' N = Partition.assign t N)
  /\ 0 <= Partition.assign t N < N
  /\ (forall i j,
        Partition.should_process_article i N t = true ->
        Partition.should_process_article j N t = true -> i = j)
  /\ (exists i, 0 <= i < N /\ Partition.should_process_article i N t = true)
  /\ (forall i, Partition.should_process_article i N t = true
                <-> i = Partition.assign t N).
Proof.
  assert (Hiff : forall i, Partition.should_process_article i N t = true
                           <-> i = Partition.assign t N).
  { intro i. unfold Partition.should_process_article, Partition.assign.
    rewrite Z.eqb_eq. split; intro H; symmetry; exact H. }
  assert (Hrange : 0 <= Partition.assign t N < N).
  { unfold Partition.assign. apply Z.mod_pos_bound. lia. }
  split; [reflexivity|].
  split; [intros t' ->; reflexivity|].
  split; [exact Hrange|].
  split.
  - intros i j Hi Hj. apply Hiff in Hi, Hj. congruence.
  - split; [|exact Hiff].
    exists (Partition.assign t N). split; [exact Hrange|].
    apply Hiff. reflexivity.
Qed.

Lemma assign_partitions_witness :
  1 <= 3 /\ 0 <= Partition.assign "Apple" 3 < 3.
Proof.
  split; [lia|].
  apply (assign_partitions "Apple" 3). lia.
Defined.

(** ** The command line of the multi-machine crawler *)

Lemma machine_path_not_default (x : string) :
  String.append "wiki_mapping_machine_" x
  <> WikiMapperMultiMachine.default_db_path.
Proof. simpl. unfold WikiMapperMultiMachine.default_db_path. congruence. Qed.

(** C10: with a valid machine id, a [--db-path] that is absent or is the
    literal default ['wiki_mapping.db'] makes [main] open
    ['wiki_mapping_machine_{machine_id}.db'], which is not the default
    path. *)
Theorem default_db_path_redirected
    (machine_id total_machines : Z) (option_value : option string)
    (Hid : 0 <= machine_id < total_machines)
    (Hopt : option_value = None \/ option_value = Some "wiki_mapping.db") :
  WikiMapperMultiMachine.main_db_path machine_id total_machines option_value
  = Some (String.append "wiki_mapping_machine_"
            (String.append (WikiMapperMultiMachine.str machine_id) ".db"))
  /\ WikiMapperMultiMachine.main_db_path machine_id total_machines option_value
     <> Some "wiki_mapping.db".
Proof.
  assert (E : WikiMapperMultiMachine.main_db_path
                machine_id total_machines option_value
              = Some (String.append "wiki_mapping_machine_"
                        (String.append (WikiMapperMultiMachine.str machine_id)
                                       ".db"))).
  { unfold WikiMapperMultiMachine.main_db_path.
    replace (machine_id <? 0) with false by (symmetry; apply Z.ltb_ge; lia).
    replace (machine_id >=? total_machines) with false
      by (symmetry; rewrite Z.geb_leb; apply Z.leb_gt; lia).
    destruct Hopt as [-> | ->]; reflexivity. }
  split; [exact E|].
  rewrite E. intro H.
  apply (machine_path_not_default
           (String.append (WikiMapperMultiMachine.str machine_id) ".db")).
  unfold WikiMapperMultiMachine.default_db_path. congruence.
Qed.

Lemma default_db_path_redirected_witness :
  WikiMapperMultiMachine.main_db_path 2 4 (Some "wiki_mapping.db")
  = Some "wiki_mapping_machine_2.db".
Proof.
  apply (default_db_path_redirected 2 4 (Some "wiki_mapping.db")).
  - lia.
  - right. reflexivity.
Defined.

(** ** The store operations *)

(** C7: on a store that meets the schema, two upserts of one title leave
    exactly one row with that title, and the second upsert changes no row
    (so neither [processed] nor [last_updated] of the existing row). *)
Theorem upsert_twice_one_row
    (db : store) (t : title) (now1 now2 : Z) (Hok : store_ok db) :
  let db1 := insert_or_ignore_article t false now1 db in
  let db2 := insert_or_ignore_article t false now2 db1 in
  List.length (filter (has_title t) (articles db2)) = 1%nat
  /\ articles db2 = articles db1
  /\ links db2 = links db1
  /\ (title_exists t db = true -> articles db2 = articles db).
Proof.
  intros db1 db2.
  assert (E21 : articles db2 = articles db1).
  { unfold db2. rewrite articles_insert_article.
    unfold db1 at 1. rewrite title_exists_insert_article. reflexivity. }
  split; [|split; [exact E21|split]].
  - rewrite E21. apply count_title_unique.
    + unfold db1. rewrite articles_insert_article.
      destruct (title_exists t db) eqn:E; [apply (titles_unique _ Hok)|].
      rewrite map_app. simpl. apply title_exists_false in E.
      apply NoDup_app;
        [apply (titles_unique _ Hok)
        |constructor; [simpl; tauto | constructor]
        |intros x Hx [<- | []]; contradiction].
    + apply title_exists_In. apply title_exists_insert_article.
  - unfold db2, db1. rewrite !links_insert_article. reflexivity.
  - intro E. rewrite E21. unfold db1. rewrite articles_insert_article, E.
    reflexivity.
Qed.

Lemma upsert_demo_ok : store_ok upsert_demo.
Proof.
  constructor; simpl.
  - repeat constructor; simpl; intuition lia.
  - repeat constructor; simpl; intuition discriminate.
  - repeat constructor; simpl; intuition lia.
  - repeat constructor; simpl; intuition lia.
  - intros l [<- | []]. simpl. tauto.
Qed.

Lemma upsert_twice_one_row_witness :
  List.length
    (filter (has_title "Apple")
       (articles (insert_or_ignore_article "Apple" false 21
                    (insert_or_ignore_article "Apple" false 20 upsert_demo))))
  = 1%nat.
Proof.
  apply (upsert_twice_one_row upsert_demo "Apple" 20 21 upsert_demo_ok).
Defined.

(** C8, as stated, fails for a negative limit: SQLite reads [LIMIT -1] as
    no limit, and the batch holds the whole backlog. *)
Lemma next_batch_negative_limit :
  exists batch,
    WikiMapper.get_next_unprocessed_articles (-1) backlog_demo = Some batch
    /\ batch = ["Apple"; "Banana"]
    /\ ~ (Z.of_nat (List.length batch) <= -1).
Proof.
  exists ["Apple"; "Banana"]. split; [reflexivity|].
  split; [reflexivity|]. simpl. lia.
Qed.

(** C8, amended: for every store and every limit with 0 <= limit < 2^63 the
    batch is returned, holds at most [limit] titles, all of unprocessed
    rows, and is the front of the unprocessed rows in ascending rowid; it
    falls short of [limit] only when nothing is left out, and when the table
    is in rowid order (as AUTOINCREMENT inserts leave it) it is the front of
    the unprocessed rows in insertion order. *)
Theorem next_batch_bounded_fifo
    (db : store) (limit : Z) (Hlimit : 0 <= limit < 2 ^ 63) :
  exists rows rest,
    WikiMapper.get_next_unprocessed_articles limit db
    = Some (map article_title rows)
    /\ Z.of_nat (List.length rows) <= limit
    /\ (forall a, In a rows -> In a (articles db) /\ processed a = false)
    /\ Permutation (rows ++ rest) (filter unprocessed (articles db))
    /\ StronglySorted by_id (rows ++ rest)
    /\ (rest <> [] -> Z.of_nat (List.length rows) = limit)
    /\ (StronglySorted by_id (articles db) ->
        rows ++ rest = filter unprocessed (articles db)).
Proof.
  set (sorted := order_by_id (filter unprocessed (articles db))).
  set (n := Z.to_nat limit).
  exists (firstn n sorted), (skipn n sorted).
  assert (Hperm : Permutation sorted (filter unprocessed (articles db)))
    by (apply Permutation_sym; apply order_by_id_perm).
  split.
  { unfold WikiMapper.get_next_unprocessed_articles, WikiMapper.sqlite_int.
    replace (- 2 ^ 63 <=? limit) with true by (symmetry; apply Z.leb_le; lia).
    replace (limit <=? 2 ^ 63 - 1) with true by (symmetry; apply Z.leb_le; lia).
    simpl. unfold select_unprocessed, limit_rows.
    replace (limit <? 0) with false by (symmetry; apply Z.ltb_ge; lia).
    reflexivity. }
  split.
  { pose proof (firstn_le_length n sorted). lia. }
  split.
  { intros a Ha.
    assert (Ha' : In a sorted).
    { rewrite <- (firstn_skipn n sorted). apply in_or_app. left. exact Ha. }
    clear Ha. rename Ha' into Ha.
    apply (Permutation_in _ Hperm) in Ha. apply filter_In in Ha.
    destruct Ha as [Ha Hu]. split; [exact Ha|].
    unfold unprocessed in Hu. apply negb_true_iff in Hu. exact Hu. }
  rewrite firstn_skipn.
  split; [exact Hperm|].
  split; [apply order_by_id_sorted|].
  split.
  { intro Hrest. rewrite length_firstn.
    destruct (Nat.le_gt_cases (List.length sorted) n) as [Hle | Hgt].
    - exfalso. apply Hrest. apply skipn_all2. exact Hle.
    - lia. }
  intro Hs. apply order_by_id_of_sorted. apply filter_sorted. exact Hs.
Qed.

Lemma next_batch_bounded_fifo_witness :
  exists rows rest,
    WikiMapper.get_next_unprocessed_articles 1 backlog_demo
    = Some (map article_title rows)
    /\ Z.of_nat (List.length rows) <= 1
    /\ (forall a, In a rows ->
                  In a (articles backlog_demo) /\ processed a = false)
    /\ Permutation (rows ++ rest) (filter unprocessed (articles backlog_demo))
    /\ StronglySorted by_id (rows ++ rest)
    /\ (rest <> [] -> Z.of_nat (List.length rows) = 1)
    /\ (StronglySorted by_id (articles backlog_demo) ->
        rows ++ rest = filter unprocessed (articles backlog_demo)).
Proof.
  apply (next_batch_bounded_fifo backlog_demo 1). lia.
Defined.

(** ** Rules for connection code *)

Section Rules.

Context {A B : Type}.

Lemma wp_ret (a : A) Q E c : Q a c -> wp (ret a) Q E c.
Proof. intro H. exact H. Qed.

Lemma wp_raise (Q : A -> conn -> Prop) E c : E c -> wp raise Q E c.
Proof. intro H. exact H. Qed.

Lemma wp_bind (m : M A) (k : A -> M B) Q E c :
  wp m (fun a c' => wp (k a) Q E c') E c -> wp (bind m k) Q E c.
Proof.
  unfold wp, bind. destruct (m c) as [a c' | c']; intro H; exact H.
Qed.

Lemma wp_conseq (m : M A) (Q Q' : A -> conn -> Prop) (E E' : conn -> Prop) c :
  wp m Q E c ->
  (forall a c', Q a c' -> Q' a c') ->
  (forall c', E c' -> E' c') ->
  wp m Q' E' c.
Proof.
  unfold wp. destruct (m c) as [a c' | c']; intros H HQ HE; auto.
Qed.

Lemma wp_subscript (row : option A) Q E c :
  (forall a, row = Some a -> Q a c) ->
  (row = None -> E c) ->
  wp (subscript row) Q E c.
Proof.
  intros HQ HE. destruct row as [a|]; simpl.
  - apply wp_ret. apply HQ. reflexivity.
  - apply wp_raise. apply HE. reflexivity.
Qed.

Lemma wp_query fail_at (q : store -> A) Q E c :
  (fires fail_at c = true -> E c) ->
  (fires fail_at c = false ->
   Q (q (working c)) (ran c (committed c) (working c))) ->
  wp (query fail_at q) Q E c.
Proof.
  unfold wp, query. destruct (fires fail_at c); intros HE HQ; auto.
Qed.

End Rules.

Lemma wp_execute fail_at (f : store -> store) Q E c :
  (fires fail_at c = true -> E c) ->
  (fires fail_at c = false -> Q tt (ran c (committed c) (f (working c)))) ->
  wp (execute fail_at f) Q E c.
Proof.
  unfold wp, execute. destruct (fires fail_at c); intros HE HQ; auto.
Qed.

Lemma wp_commit fail_at Q E c :
  (fires fail_at c = true -> E c) ->
  (fires fail_at c = false -> Q tt (ran c (working c) (working c))) ->
  wp (commit fail_at) Q E c.
Proof.
  unfold wp, commit. destruct (fires fail_at c); intros HE HQ; auto.
Qed.

(** The loop rule: the invariant is indexed by the elements already
    handled. *)
Lemma wp_for_each {A} (body : A -> M unit) (I : list A -> conn -> Prop) E xs :
  forall done c,
    I done c ->
    (forall done' x c', I done' c' ->
                        wp (body x) (fun _ c'' => I (done' ++ [x]) c'') E c') ->
    wp (for_each xs body) (fun _ c' => I (done ++ xs) c') E c.
Proof.
  induction xs as [|x xs IH]; intros done c HI Hbody; simpl.
  - apply wp_ret. rewrite app_nil_r. exact HI.
  - apply wp_bind. eapply wp_conseq; [apply (Hbody done x c HI) | | auto].
    intros u c' HI'. simpl in HI'. simpl.
    replace (done ++ x :: xs) with ((done ++ [x]) ++ xs)
      by (rewrite <- app_assoc; reflexivity).
    apply IH; assumption.
Qed.

Lemma bind_run {A B} (m : M A) (k : A -> M B) c :
  bind m k c
  = match m c with
    | Ok a c' => k a c'
    | Raised c' => Raised c'
    end.
Proof. reflexivity. Qed.

Lemma fires_none c : fires None c = false.
Proof. reflexivity. Qed.

Lemma fires_some k c : fires (Some k) c = Nat.eqb k (executed c).
Proof. reflexivity. Qed.

(** ** Saving an article *)

(** A failure at any of the statements of the transaction, the commit
    included, makes it raise with nothing committed. *)
Lemma save_transaction_raises db now t links k :
  (k <= List.length links + 3)%nat ->
  wp (WikiMapper.save_transaction (Some k) now t links)
     (fun _ _ => False) (fun c => committed c = db) (connect db).
Proof.
  intro Hk. unfold WikiMapper.save_transaction.
  apply wp_bind. apply wp_execute; [reflexivity|].
  rewrite fires_some. simpl. intro F0. apply Nat.eqb_neq in F0.
  apply wp_bind. apply wp_query; [reflexivity|].
  rewrite fires_some. simpl. intro F1. apply Nat.eqb_neq in F1.
  apply wp_bind. apply wp_subscript; [|reflexivity].
  intros article_id _.
  apply wp_bind.
  eapply wp_conseq;
    [apply (wp_for_each _
              (fun done c => committed c = db
                             /\ executed c = (2 + List.length done)%nat
                             /\ (executed c <= k)%nat)
              (fun c => committed c = db) links [])
    | | auto].
  - simpl. repeat split. lia.
  - intros done x c [Hc [He Hle]]. apply wp_execute; [auto|].
    rewrite fires_some. intro F. apply Nat.eqb_neq in F.
    simpl. rewrite length_app. simpl. repeat split; [assumption | lia | lia].
  - simpl. intros u c [Hc [He Hle]].
    apply wp_bind. apply wp_execute; [auto|].
    rewrite fires_some. intro F. apply Nat.eqb_neq in F.
    apply wp_commit; [auto|].
    rewrite fires_some. simpl. intro F'. apply Nat.eqb_neq in F'. lia.
Qed.

(** C2: whichever statement of [save_article_links] fails (the upsert, the
    id lookup, any of the link inserts, the update or the commit), the
    rollback leaves the file exactly as it was: no new link row, every
    article row with its old [processed] flag, and the same titles offered
    by [get_next_unprocessed_articles]. *)
Theorem save_failure_rolls_back
    (db : store) (now : Z) (t : title) (links : list title) (k : nat)
    (Hk : (k <= List.length links + 3)%nat) :
  let db' := WikiMapper.save_article_links (Some k) now t links db in
  db' = db
  /\ Store.links db' = Store.links db
  /\ (forall a, In a (articles db') <-> In a (articles db))
  /\ (forall limit,
        WikiMapper.get_next_unprocessed_articles limit db'
        = WikiMapper.get_next_unprocessed_articles limit db).
Proof.
  intro db'.
  assert (E : db' = db).
  { unfold db', WikiMapper.save_article_links.
    pose proof (save_transaction_raises db now t links k Hk) as H.
    unfold wp in H.
    destruct (WikiMapper.save_transaction (Some k) now t links (connect db))
      as [u c | c]; [contradiction|].
    simpl. exact H. }
  rewrite E. repeat split; auto.
Qed.

(** The failure in the witness strikes after the first of two link
    inserts: the open transaction holds the new link, the file does not. *)
Lemma save_failure_rolls_back_witness :
  (exists c,
      WikiMapper.save_transaction (Some 3%nat) 20 "Banana" ["Apple"; "Cherry"]
        (connect backlog_demo) = Raised c
      /\ Store.links (working c) = [Link 1 2 "Apple"])
  /\ WikiMapper.save_article_links (Some 3%nat) 20 "Banana" ["Apple"; "Cherry"]
       backlog_demo = backlog_demo.
Proof.
  split.
  - eexists. split; reflexivity.
  - apply (save_failure_rolls_back backlog_demo 20 "Banana"
             ["Apple"; "Cherry"] 3%nat).
    simpl. lia.
Defined.

(** ** The statements keep the schema and only add *)

Section Statements.

Lemma find_app_some {A} (f : A -> bool) l l' a :
  find f l = Some a -> find f (l ++ l') = Some a.
Proof.
  induction l as [|x l IH]; simpl; [discriminate|].
  destruct (f x); auto.
Qed.

Lemma find_map_title (g : article -> article) t rows :
  (forall a, article_title (g a) = article_title a) ->
  (forall a, article_id (g a) = article_id a) ->
  option_map article_id (find (has_title t) (map g rows))
  = option_map article_id (find (has_title t) rows).
Proof.
  intros Ht Hi. induction rows as [|a rows IH]; simpl; [reflexivity|].
  unfold has_title at 1 3. rewrite Ht.
  destruct (String.eqb (article_title a) t); simpl; [rewrite Hi; reflexivity|].
  exact IH.
Qed.

Lemma existsb_map_title (g : article -> article) t rows :
  (forall a, article_title (g a) = article_title a) ->
  existsb (has_title t) (map g rows) = existsb (has_title t) rows.
Proof.
  intro Ht. induction rows as [|a rows IH]; simpl; [reflexivity|].
  unfold has_title at 1 3. rewrite Ht, IH. reflexivity.
Qed.

Lemma grows_refl s : grows s s.
Proof. constructor; auto. Qed.

Lemma grows_trans s1 s2 s3 : grows s1 s2 -> grows s2 s3 -> grows s1 s3.
Proof.
  intros [a1 b1 c1] [a2 b2 c2]. constructor; auto.
Qed.

Lemma grows_insert_article t p now s :
  grows s (insert_or_ignore_article t p now s).
Proof.
  constructor.
  - intros t' i. unfold select_id. rewrite articles_insert_article.
    destruct (title_exists t s); [auto|].
    destruct (find (has_title t') (articles s)) as [a|] eqn:E;
      simpl; [|discriminate].
    intro H. rewrite (find_app_some _ _ _ _ E). exact H.
  - intros t' [Hex Hall]. unfold done, title_exists.
    rewrite articles_insert_article.
    destruct (title_exists t s) eqn:E; [split; assumption|].
    split.
    + rewrite existsb_app. apply orb_true_iff. left. exact Hex.
    + intros a Ha Ht. apply in_app_or in Ha. destruct Ha as [Ha | [<- | []]].
      * apply Hall; assumption.
      * simpl in Ht. subst t'. congruence.
  - intros i to. unfold link_exists. rewrite links_insert_article. auto.
Qed.

Lemma grows_update (g : article -> article) s :
  (forall a, article_title (g a) = article_title a) ->
  (forall a, article_id (g a) = article_id a) ->
  (forall a, processed a = true -> processed (g a) = true) ->
  grows s (Store (map g (articles s)) (links s) (seq_articles s) (seq_links s)).
Proof.
  intros Ht Hi Hp. constructor.
  - intros t i. unfold select_id. simpl. rewrite find_map_title; auto.
  - intros t [Hex Hall]. unfold done, title_exists. simpl.
    rewrite existsb_map_title by exact Ht. split; [exact Hex|].
    intros a Ha Hta. apply in_map_iff in Ha. destruct Ha as [b [<- Hb]].
    apply Hp. apply Hall; [exact Hb|]. rewrite <- Ht. exact Hta.
  - auto.
Qed.

Lemma grows_update_by_id i s : grows s (update_processed_by_id i s).
Proof.
  unfold update_processed_by_id. apply grows_update;
    intro a; destruct (article_id a =? i); auto.
Qed.

Lemma grows_update_by_title t s : grows s (update_processed_by_title t s).
Proof.
  unfold update_processed_by_title. apply grows_update;
    intro a; destruct (has_title t a && negb (processed a)); auto.
Qed.

Lemma grows_insert_link i to s : grows s (insert_or_ignore_link i to s).
Proof.
  constructor.
  - intros t j. unfold select_id. rewrite articles_insert_link. auto.
  - intros t. unfold done, title_exists. rewrite articles_insert_link. auto.
  - intros j to'. unfold link_exists at 2. rewrite links_insert_link.
    destruct (link_exists i to s); [auto|].
    intro H. rewrite existsb_app. apply orb_true_iff. left. exact H.
Qed.

Lemma grows_insert_links i links s :
  grows s (fold_left (fun s link => insert_or_ignore_link i link s) links s).
Proof.
  revert s. induction links as [|l links IH]; intro s; simpl;
    [apply grows_refl|].
  eapply grows_trans; [apply grows_insert_link | apply IH].
Qed.

Lemma ok_insert_article t p now s :
  store_ok s -> store_ok (insert_or_ignore_article t p now s).
Proof.
  intros [H1 H2 H3 H4 H5].
  unfold insert_or_ignore_article.
  destruct (title_exists t s) eqn:E; constructor; simpl; auto.
  - rewrite map_app. simpl.
    apply NoDup_app; [exact H1 | constructor; [simpl; tauto | constructor]|].
    intros x Hx [<- | []]. exact (next_rowid_fresh _ _ _ Hx).
  - rewrite map_app. simpl. apply title_exists_false in E.
    apply NoDup_app; [exact H2 | constructor; [simpl; tauto | constructor]|].
    intros x Hx [<- | []]. contradiction.
  - intros l Hl. rewrite map_app. apply in_or_app. left. auto.
Qed.

Lemma ok_update (g : article -> article) s :
  (forall a, article_title (g a) = article_title a) ->
  (forall a, article_id (g a) = article_id a) ->
  store_ok s ->
  store_ok (Store (map g (articles s)) (links s) (seq_articles s) (seq_links s)).
Proof.
  intros Ht Hi [H1 H2 H3 H4 H5].
  assert (Ei : map article_id (map g (articles s)) = map article_id (articles s)).
  { rewrite map_map. apply map_ext. exact Hi. }
  assert (Et : map article_title (map g (articles s))
               = map article_title (articles s)).
  { rewrite map_map. apply map_ext. exact Ht. }
  constructor; simpl; try rewrite Ei; try rewrite Et; auto.
Qed.

Lemma ok_update_by_id i s : store_ok s -> store_ok (update_processed_by_id i s).
Proof.
  unfold update_processed_by_id. apply ok_update;
    intro a; destruct (article_id a =? i); auto.
Qed.

Lemma ok_update_by_title t s :
  store_ok s -> store_ok (update_processed_by_title t s).
Proof.
  unfold update_processed_by_title. apply ok_update;
    intro a; destruct (has_title t a && negb (processed a)); auto.
Qed.

Lemma ok_insert_link i to s :
  In i (map article_id (articles s)) ->
  store_ok s -> store_ok (insert_or_ignore_link i to s).
Proof.
  intros Hi [H1 H2 H3 H4 H5].
  unfold insert_or_ignore_link.
  destruct (link_exists i to s) eqn:E; constructor; simpl; auto.
  - rewrite map_app. simpl.
    apply NoDup_app; [exact H3 | constructor; [simpl; tauto | constructor]|].
    intros x Hx [<- | []]. exact (next_rowid_fresh _ _ _ Hx).
  - rewrite map_app. simpl.
    apply NoDup_app; [exact H4 | constructor; [simpl; tauto | constructor]|].
    intros x Hx [<- | []]. apply link_exists_In in Hx. congruence.
  - intros l Hl. apply in_app_or in Hl. destruct Hl as [Hl | [<- | []]]; auto.
Qed.

Lemma ok_insert_links i links s :
  In i (map article_id (articles s)) ->
  store_ok s ->
  store_ok (fold_left (fun s link => insert_or_ignore_link i link s) links s).
Proof.
  revert s. induction links as [|l links IH]; intros s Hi Hok; simpl;
    [exact Hok|].
  apply IH; [rewrite articles_insert_link; exact Hi|].
  apply ok_insert_link; assumption.
Qed.

Lemma select_id_In t s i :
  select_id t s = Some i -> In i (map article_id (articles s)).
Proof.
  intro H. apply select_id_Some in H. destruct H as [a [Ha [_ <-]]].
  apply in_map. exact Ha.
Qed.

Lemma articles_insert_links i links s :
  articles (fold_left (fun s link => insert_or_ignore_link i link s) links s)
  = articles s.
Proof.
  revert s. induction links as [|l links IH]; intro s; simpl; [reflexivity|].
  rewrite IH. apply articles_insert_link.
Qed.

(** Under UNIQUE(title), a title names one row. *)
Lemma title_row_unique (rows : list article) a b :
  NoDup (map article_title rows) ->
  In a rows -> In b rows -> article_title a = article_title b -> a = b.
Proof.
  induction rows as [|x rows IH]; simpl; [tauto|].
  intros Hnd Ha Hb E. inversion Hnd as [|y l Hnotin Hnd']; subst.
  destruct Ha as [-> | Ha], Hb as [-> | Hb]; auto.
  - exfalso. apply Hnotin. rewrite E. apply in_map. exact Hb.
  - exfalso. apply Hnotin. rewrite <- E. apply in_map. exact Ha.
Qed.

(** Under PRIMARY KEY(id), an id names one title. *)
Lemma id_row_unique (rows : list article) a b :
  NoDup (map article_id rows) ->
  In a rows -> In b rows -> article_id a = article_id b -> a = b.
Proof.
  induction rows as [|x rows IH]; simpl; [tauto|].
  intros Hnd Ha Hb E. inversion Hnd as [|y l Hnotin Hnd']; subst.
  destruct Ha as [-> | Ha], Hb as [-> | Hb]; auto.
  - exfalso. apply Hnotin. rewrite E. apply in_map. exact Hb.
  - exfalso. apply Hnotin. rewrite <- E. apply in_map. exact Ha.
Qed.

End Statements.

(** ** [save_article_links] against [saved] *)

Lemma fires_true fail_at c : fires fail_at c = true -> fail_at <> None.
Proof. destruct fail_at; [discriminate | intro H; discriminate H]. Qed.

Lemma select_id_title_exists t s i :
  select_id t s = Some i -> title_exists t s = true.
Proof.
  intro H. destruct (title_exists t s) eqn:E; [reflexivity|].
  unfold select_id in H. unfold title_exists in E.
  destruct (find (has_title t) (articles s)) as [a|] eqn:F; [|discriminate].
  apply find_some in F. destruct F as [Hin Ha].
  assert (X : existsb (has_title t) (articles s) = true)
    by (apply existsb_exists; exists a; tauto).
  congruence.
Qed.

(** Whatever the fault, the transaction either commits [saved] or raises
    with the file untouched; without a fault it commits. *)
Lemma save_transaction_spec fail_at now t links db :
  wp (WikiMapper.save_transaction fail_at now t links)
     (fun _ c' => committed c' = saved now t links db)
     (fun c' => fail_at <> None /\ committed c' = db) (connect db).
Proof.
  unfold WikiMapper.save_transaction.
  set (s1 := insert_or_ignore_article t false now db).
  apply wp_bind. apply wp_execute;
    [intro F; split; [exact (fires_true _ _ F) | reflexivity]|].
  intros _. apply wp_bind. apply wp_query;
    [intro F; split; [exact (fires_true _ _ F) | reflexivity]|].
  intros _. simpl. fold s1.
  apply wp_bind. apply wp_subscript.
  2:{ intro HN. apply select_id_None in HN. unfold s1 in HN.
      rewrite title_exists_insert_article in HN. discriminate. }
  intros i Hi. apply wp_bind.
  eapply wp_conseq;
    [apply (wp_for_each _
              (fun done c =>
                 committed c = db
                 /\ working c
                    = fold_left (fun s link => insert_or_ignore_link i link s)
                                done s1)
              (fun c => fail_at <> None /\ committed c = db) links [])
    | | auto].
  - simpl. split; reflexivity.
  - intros done' x c [Hc Hw]. apply wp_execute.
    + intro F. split; [exact (fires_true _ _ F) | exact Hc].
    + intros _. simpl. split; [exact Hc|].
      rewrite fold_left_app. simpl. rewrite Hw. reflexivity.
  - simpl. intros u c [Hc Hw].
    apply wp_bind. apply wp_execute.
    + intro F. split; [exact (fires_true _ _ F) | exact Hc].
    + intros _. apply wp_commit.
      * intro F. split; [exact (fires_true _ _ F) | exact Hc].
      * intros _. simpl. unfold saved. fold s1. rewrite Hi, Hw. reflexivity.
Qed.

Lemma save_no_fault now t links db :
  WikiMapper.save_article_links None now t links db = saved now t links db.
Proof.
  unfold WikiMapper.save_article_links.
  pose proof (save_transaction_spec None now t links db) as H. unfold wp in H.
  destruct (WikiMapper.save_transaction None now t links (connect db))
    as [u c | c]; simpl.
  - exact H.
  - destruct H as [H _]. congruence.
Qed.

Lemma save_cases fail_at now t links db :
  WikiMapper.save_article_links fail_at now t links db = db
  \/ WikiMapper.save_article_links fail_at now t links db
     = saved now t links db.
Proof.
  unfold WikiMapper.save_article_links.
  pose proof (save_transaction_spec fail_at now t links db) as H. unfold wp in H.
  destruct (WikiMapper.save_transaction fail_at now t links (connect db))
    as [u c | c]; simpl.
  - right. exact H.
  - left. tauto.
Qed.

Lemma saved_eq now t links db :
  exists i,
    select_id t (insert_or_ignore_article t false now db) = Some i
    /\ saved now t links db
       = update_processed_by_id i
           (fold_left (fun s link => insert_or_ignore_link i link s) links
                      (insert_or_ignore_article t false now db)).
Proof.
  destruct (select_id_exists t (insert_or_ignore_article t false now db)
              (title_exists_insert_article t false now db)) as [i Hi].
  exists i. split; [exact Hi|]. unfold saved. rewrite Hi. reflexivity.
Qed.

Lemma saved_grows now t links db : grows db (saved now t links db).
Proof.
  destruct (saved_eq now t links db) as [i [Hi ->]].
  eapply grows_trans; [apply grows_insert_article|].
  eapply grows_trans; [apply grows_insert_links|].
  apply grows_update_by_id.
Qed.

Lemma saved_ok now t links db : store_ok db -> store_ok (saved now t links db).
Proof.
  intro Hok. destruct (saved_eq now t links db) as [i [Hi ->]].
  apply ok_update_by_id. apply ok_insert_links.
  - exact (select_id_In _ _ _ Hi).
  - apply ok_insert_article. exact Hok.
Qed.

Lemma saved_done now t links db : store_ok db -> done t (saved now t links db).
Proof.
  intro Hok. destruct (saved_eq now t links db) as [i [Hi E]].
  set (s1 := insert_or_ignore_article t false now db) in *.
  assert (Hok1 : store_ok s1) by (apply ok_insert_article; exact Hok).
  rewrite E. unfold done, title_exists, update_processed_by_id. simpl.
  rewrite articles_insert_links. split.
  - rewrite existsb_map_title
      by (intro a; destruct (article_id a =? i); reflexivity).
    apply title_exists_insert_article.
  - intros a Ha Ht. apply in_map_iff in Ha. destruct Ha as [b [<- Hb]].
    apply select_id_Some in Hi. destruct Hi as [r [Hr [Hrt Hri]]].
    assert (Hbt : article_title b = t)
      by (destruct (article_id b =? i); exact Ht).
    assert (b = r).
    { apply (title_row_unique (articles s1)); auto.
      - apply (titles_unique _ Hok1).
      - congruence. }
    subst b. rewrite Hri, Z.eqb_refl. reflexivity.
Qed.

Lemma in_limit_rows {R} limit (rows : list R) r :
  In r (limit_rows limit rows) -> In r rows.
Proof.
  unfold limit_rows. destruct (limit <? 0); [auto|].
  intro H. rewrite <- (firstn_skipn (Z.to_nat limit) rows).
  apply in_or_app. left. exact H.
Qed.

(** A done title is in no batch. *)
Lemma done_not_in_batch t db limit batch :
  done t db ->
  WikiMapper.get_next_unprocessed_articles limit db = Some batch ->
  ~ In t batch.
Proof.
  intros [_ Hall]. unfold WikiMapper.get_next_unprocessed_articles.
  destruct (WikiMapper.sqlite_int limit); [|discriminate].
  intro H. injection H as <-. unfold select_unprocessed.
  intro Hin. apply in_map_iff in Hin. destruct Hin as [a [Ht Ha]].
  apply in_limit_rows in Ha.
  apply (Permutation_in _ (Permutation_sym (order_by_id_perm _))) in Ha.
  apply filter_In in Ha. destruct Ha as [Ha Hu].
  unfold unprocessed in Hu. rewrite (Hall a Ha Ht) in Hu. discriminate.
Qed.

Section Batches.

Variable fetch : title -> option (list title).
Variable db_fault : title -> option nat.
Variable now : Z.

Lemma process_batch_grows batch db :
  grows db (WikiMapper.process_batch fetch db_fault now batch db).
Proof.
  revert db. induction batch as [|a batch IH]; intro db; simpl;
    [apply grows_refl|].
  eapply grows_trans; [|apply IH].
  destruct (save_cases (db_fault a) now a
              (WikiMapper.get_article_links fetch a) db) as [-> | ->];
    [apply grows_refl | apply saved_grows].
Qed.

Lemma process_batch_ok batch db :
  store_ok db ->
  store_ok (WikiMapper.process_batch fetch db_fault now batch db).
Proof.
  revert db. induction batch as [|a batch IH]; intros db Hok; simpl;
    [exact Hok|].
  apply IH.
  destruct (save_cases (db_fault a) now a
              (WikiMapper.get_article_links fetch a) db) as [-> | ->];
    [exact Hok | apply saved_ok; exact Hok].
Qed.

Lemma process_batch_done batch db t :
  store_ok db -> In t batch -> db_fault t = None ->
  done t (WikiMapper.process_batch fetch db_fault now batch db).
Proof.
  revert db. induction batch as [|a batch IH]; intros db Hok Hin Hf;
    simpl; [contradiction|].
  destruct (String.eqb a t) eqn:E.
  - apply String.eqb_eq in E. subst a.
    apply (grows_done _ _ (process_batch_grows batch _)).
    rewrite Hf, save_no_fault. apply saved_done. exact Hok.
  - apply String.eqb_neq in E. destruct Hin as [Hin | Hin]; [contradiction|].
    apply IH; auto.
    destruct (save_cases (db_fault a) now a
                (WikiMapper.get_article_links fetch a) db) as [-> | ->];
      [exact Hok | apply saved_ok; exact Hok].
Qed.

Lemma batch_run_grows fuel batch_size db :
  grows db (final (WikiMapper.batch_run fetch db_fault now fuel batch_size db)).
Proof.
  revert db. induction fuel as [|fuel IH]; intro db; simpl;
    [apply grows_refl|].
  destruct (WikiMapper.get_next_unprocessed_articles batch_size db)
    as [[|a batch]|]; simpl; try apply grows_refl.
  eapply grows_trans; [|apply IH].
  apply (process_batch_grows (a :: batch)).
Qed.

End Batches.

(** ** The scheduler and a link fetcher that fails *)

(** C1, as stated, fails: with a fetcher that always fails, the first pass
    over the batch marks "X" processed, the next batch is empty and
    [batch_run] completes. *)
Lemma failed_fetch_gets_processed :
  WikiMapper.get_next_unprocessed_articles 100 stall_demo = Some ["X"]
  /\ WikiMapper.get_article_links always_fails "X" = []
  /\ articles (WikiMapper.process_batch always_fails no_fault 5 ["X"] stall_demo)
     = [Article 1 "X" true 0]
  /\ WikiMapper.get_next_unprocessed_articles 100
       (WikiMapper.process_batch always_fails no_fault 5 ["X"] stall_demo)
     = Some []
  /\ WikiMapper.batch_run always_fails no_fault 5 2 100 stall_demo
     = WikiMapper.Complete
         (WikiMapper.process_batch always_fails no_fault 5 ["X"] stall_demo).
Proof. repeat split; reflexivity. Qed.

(** C1, amended: a title whose fetch fails is handled as a title with no
    links.  [get_article_links] returns the empty list; when the title is in
    the batch and the database does not fail on it, the pass leaves it done
    (it has its row and that row is processed), so no later batch offers it,
    however many further passes [batch_run] makes. *)
Theorem failed_fetch_marks_processed
    (fetch : title -> option (list title)) (db_fault : title -> option nat)
    (now : Z) (db : store) (batch : list title) (t : title)
    (Hfetch : fetch t = None) (Hfault : db_fault t = None)
    (Hok : store_ok db) (Hin : In t batch) :
  let db' := WikiMapper.process_batch fetch db_fault now batch db in
  WikiMapper.get_article_links fetch t = []
  /\ done t db'
  /\ (forall limit next,
        WikiMapper.get_next_unprocessed_articles limit db' = Some next ->
        ~ In t next)
  /\ (forall fuel batch_size limit next,
        let db'' :=
          final (WikiMapper.batch_run fetch db_fault now fuel batch_size db') in
        done t db''
        /\ (WikiMapper.get_next_unprocessed_articles limit db'' = Some next ->
            ~ In t next)).
Proof.
  intro db'.
  assert (Hd : done t db')
    by (apply process_batch_done; assumption).
  split; [unfold WikiMapper.get_article_links; rewrite Hfetch; reflexivity|].
  split; [exact Hd|].
  split; [intros limit next; apply done_not_in_batch; exact Hd|].
  intros fuel batch_size limit next db''.
  assert (Hd' : done t db'').
  { apply (grows_done _ _ (batch_run_grows fetch db_fault now fuel batch_size db')).
    exact Hd. }
  split; [exact Hd' | apply done_not_in_batch; exact Hd'].
Qed.

Lemma stall_demo_ok : store_ok stall_demo.
Proof.
  constructor; simpl.
  - repeat constructor; simpl; tauto.
  - repeat constructor; simpl; tauto.
  - constructor.
  - constructor.
  - intros l [].
Qed.

Lemma failed_fetch_marks_processed_witness :
  WikiMapper.get_article_links always_fails "X" = []
  /\ done "X" (WikiMapper.process_batch always_fails no_fault 5 ["X"] stall_demo).
Proof.
  pose proof (failed_fetch_marks_processed always_fails no_fault 5 stall_demo
                ["X"] "X" eq_refl eq_refl stall_demo_ok
                (or_introl eq_refl)) as H.
  simpl in H. destruct H as [H1 [H2 _]]. split; assumption.
Defined.

(** ** A successful save *)

Lemma in_select_links_from i to s :
  In to (select_links_from i s) <-> link_exists i to s = true.
Proof.
  unfold select_links_from. rewrite link_exists_In, !in_map_iff.
  split.
  - intros [l [Hto Hl]]. apply filter_In in Hl. destruct Hl as [Hl Hi].
    apply Z.eqb_eq in Hi. exists l. subst. tauto.
  - intros [l [E Hl]]. inversion E; subst. exists l. split; [reflexivity|].
    apply filter_In. split; [exact Hl | apply Z.eqb_refl].
Qed.

Lemma link_exists_insert_link_iff i link s j to :
  link_exists j to (insert_or_ignore_link i link s) = true
  <-> link_exists j to s = true \/ (j = i /\ to = link).
Proof.
  split.
  - unfold link_exists at 1. rewrite links_insert_link.
    destruct (link_exists i link s) eqn:E; [tauto|].
    rewrite existsb_app. simpl. rewrite orb_false_r.
    intro H. apply orb_true_iff in H. destruct H as [H | H]; [left; exact H|].
    right. unfold same_link in H. simpl in H.
    apply andb_true_iff in H. destruct H as [H1 H2].
    apply Z.eqb_eq in H1. apply String.eqb_eq in H2. split; congruence.
  - intros [H | [-> ->]].
    + apply (grows_link _ _ (grows_insert_link i link s)). exact H.
    + apply link_exists_insert_link.
Qed.

Lemma link_exists_insert_links_iff i links s j to :
  link_exists j to
    (fold_left (fun s link => insert_or_ignore_link i link s) links s) = true
  <-> link_exists j to s = true \/ (j = i /\ In to links).
Proof.
  revert s. induction links as [|l links IH]; intro s; simpl; [tauto|].
  rewrite IH, link_exists_insert_link_iff.
  split; [intros [[H | [-> ->]] | [-> H]] | intros [H | [-> [-> | H]]]]; auto.
Qed.

(** C6, as stated, fails in its [lastUpdated] part: "Banana" was inserted
    at time 11 and saved at time 99; the save marks it processed and its
    [last_updated] is still 11. *)
Lemma save_keeps_last_updated :
  articles (WikiMapper.save_article_links None 99 "Banana" ["Apple"] backlog_demo)
  = [Article 1 "Apple" false 10; Article 2 "Banana" true 11]
  /\ Store.links
       (WikiMapper.save_article_links None 99 "Banana" ["Apple"] backlog_demo)
     = [Link 1 2 "Apple"]
  /\ 11 <> 99.
Proof. repeat split; try reflexivity. lia. Qed.

(** C6, amended: on a store that meets the schema, a save that does not
    fail leaves the title done (its row exists and is processed), adds to
    the links of that row exactly the given links that were not there yet,
    keeps the schema (no duplicate pair), and writes [last_updated] of no
    existing row; all of it is one commit. *)
Theorem save_marks_processed
    (db : store) (now : Z) (t : title) (links : list title)
    (Hok : store_ok db) :
  let db' := WikiMapper.save_article_links None now t links db in
  WikiMapperMultiMachine.save_article_links None now t links db = db'
  /\ done t db'
  /\ (exists i,
        select_id t db' = Some i
        /\ forall to,
             In to (select_links_from i db')
             <-> In to (select_links_from i db) \/ In to links)
  /\ store_ok db'
  /\ (forall a, In a (articles db) ->
        exists a',
          In a' (articles db')
          /\ article_id a' = article_id a
          /\ article_title a' = article_title a
          /\ last_updated a' = last_updated a)
  /\ (forall fail_at,
        WikiMapper.save_article_links fail_at now t links db = db
        \/ WikiMapper.save_article_links fail_at now t links db = db').
Proof.
  intro db'. unfold db'. split; [reflexivity|].
  rewrite save_no_fault.
  destruct (saved_eq now t links db) as [i [Hi E]].
  set (s1 := insert_or_ignore_article t false now db) in *.
  assert (Hg : grows s1 (saved now t links db)).
  { rewrite E. eapply grows_trans;
      [apply grows_insert_links | apply grows_update_by_id]. }
  split; [apply saved_done; exact Hok|].
  split.
  { exists i. split; [apply (grows_id _ _ Hg); exact Hi|].
    intro to. rewrite !in_select_links_from, E.
    unfold link_exists at 1, update_processed_by_id. simpl.
    fold (link_exists i to
            (fold_left (fun s link => insert_or_ignore_link i link s) links s1)).
    rewrite link_exists_insert_links_iff.
    unfold link_exists, s1. rewrite links_insert_article. tauto. }
  split; [apply saved_ok; exact Hok|].
  split.
  { intros a Ha.
    set (g := fun a => if article_id a =? i then set_processed a else a).
    exists (g a). split.
    - rewrite E. unfold update_processed_by_id. simpl.
      rewrite articles_insert_links. apply in_map.
      unfold s1. rewrite articles_insert_article.
      destruct (title_exists t db); [exact Ha|].
      apply in_or_app. left. exact Ha.
    - unfold g. destruct (article_id a =? i); auto. }
  intro fail_at. apply save_cases.
Qed.

Lemma save_marks_processed_witness :
  done "Banana"
    (WikiMapper.save_article_links None 99 "Banana" ["Apple"] upsert_demo).
Proof.
  apply (save_marks_processed upsert_demo 99 "Banana" ["Apple"] upsert_demo_ok).
Defined.

(** ** [merge_database] against [merged] *)

Section MergeRefinement.

Variable fail_at : option nat.
Variable now : Z.
Variable input : store.

Lemma title_exists_update_by_title t t' s :
  title_exists t (update_processed_by_title t' s) = title_exists t s.
Proof.
  unfold title_exists, update_processed_by_title. simpl.
  apply existsb_map_title.
  intro a. destruct (has_title t' a && negb (processed a)); reflexivity.
Qed.

(** One row: the body either raises with nothing new committed, or leaves
    [merge_step] in the open transaction, committed or not. *)
Lemma merge_article_spec n row c :
  title_exists (fst row) input = true ->
  wp (DatabaseMerger.merge_article fail_at now input n row)
     (fun n' c' =>
        n' = n + 1
        /\ working c' = merge_step now input (working c) row
        /\ (committed c' = committed c \/ committed c' = working c'))
     (fun c' => fail_at <> None /\ committed c' = committed c) c.
Proof.
  destruct row as [t p]. simpl. intro Hin.
  unfold DatabaseMerger.merge_article.
  set (s1 := insert_or_ignore_article t p now (working c)).
  set (s2 := if p then update_processed_by_title t s1 else s1).
  assert (Hex2 : title_exists t s2 = true).
  { unfold s2, s1. destruct p.
    - rewrite title_exists_update_by_title. apply title_exists_insert_article.
    - apply title_exists_insert_article. }
  destruct (select_id_exists t input Hin) as [i Hi].
  destruct (select_id_exists t s2 Hex2) as [o Ho].
  unfold merge_step. fold s1. fold s2. rewrite Hi, Ho.
  apply wp_bind. apply wp_execute;
    [intro F; split; [exact (fires_true _ _ F) | reflexivity]|].
  intros _. apply wp_bind.
  apply (wp_conseq _
           (fun _ c' => committed c' = committed c /\ working c' = s2)
           _ (fun c' => fail_at <> None /\ committed c' = committed c));
    [| |auto].
  { destruct p.
    - apply wp_execute;
        [intro F; split; [exact (fires_true _ _ F) | reflexivity]|].
      intros _. split; reflexivity.
    - apply wp_ret. split; reflexivity. }
  intros u c1 [Hc1 Hw1].
  apply wp_bind. apply wp_ret.
  apply wp_bind. apply wp_query;
    [intro F; split; [exact (fires_true _ _ F) | exact Hc1]|].
  intros _. rewrite Hw1, Ho.
  apply wp_bind. apply wp_ret.
  apply wp_bind.
  eapply wp_conseq;
    [apply (wp_for_each _
              (fun done c' =>
                 committed c' = committed c
                 /\ working c'
                    = fold_left (fun s to => insert_or_ignore_link o to s)
                                done s2)
              (fun c' => fail_at <> None /\ committed c' = committed c)
              (select_links_from i input) [])
    | | auto].
  - simpl. split; [exact Hc1 | reflexivity].
  - intros done' x c' [Hc Hw]. apply wp_execute.
    + intro F. split; [exact (fires_true _ _ F) | exact Hc].
    + intros _. simpl. split; [exact Hc|].
      rewrite fold_left_app. simpl. rewrite Hw. reflexivity.
  - simpl. intros u' c2 [Hc2 Hw2].
    apply wp_bind.
    destruct ((n + 1) mod 1000 =? 0).
    + apply wp_commit.
      * intro F. split; [exact (fires_true _ _ F) | exact Hc2].
      * intros _. apply wp_ret.
        split; [reflexivity|]. split; [|right; reflexivity].
        exact Hw2.
    + apply wp_ret. apply wp_ret.
      split; [reflexivity|]. split; [|left; exact Hc2].
      exact Hw2.
Qed.

(** The whole loop: what is committed is what was, or [merged] over some
    front part of the rows. *)
Lemma merge_articles_spec rows :
  forall n c,
    (forall row, In row rows -> title_exists (fst row) input = true) ->
    wp (DatabaseMerger.merge_articles fail_at now input n rows)
       (fun _ c' =>
          working c' = merged now input rows (working c)
          /\ (committed c' = committed c
              \/ exists front back,
                   rows = front ++ back
                   /\ committed c' = merged now input front (working c)))
       (fun c' =>
          fail_at <> None
          /\ (committed c' = committed c
              \/ exists front back,
                   rows = front ++ back
                   /\ committed c' = merged now input front (working c)))
       c.
Proof.
  induction rows as [|row rows IH]; intros n c Hrows; simpl.
  - apply wp_ret. split; [reflexivity | left; reflexivity].
  - apply wp_bind.
    eapply wp_conseq;
      [apply merge_article_spec; apply Hrows; left; reflexivity | |].
    + intros n' c1 [_ [Hw1 Hc1]].
      eapply wp_conseq;
        [apply IH; intros r Hr; apply Hrows; right; exact Hr | |].
      * intros n'' c2 [Hw2 Hc2]. rewrite Hw1 in Hw2, Hc2.
        split; [exact Hw2|].
        destruct Hc2 as [Hc2 | [front [back [E Hc2]]]].
        -- destruct Hc1 as [Hc1 | Hc1]; [left; congruence|].
           right. exists [row], rows. split; [reflexivity|].
           simpl. congruence.
        -- right. exists (row :: front), back. split; [rewrite E; reflexivity|].
           exact Hc2.
      * intros c2 [Hf Hc2]. rewrite Hw1 in Hc2. split; [exact Hf|].
        destruct Hc2 as [Hc2 | [front [back [E Hc2]]]].
        -- destruct Hc1 as [Hc1 | Hc1]; [left; congruence|].
           right. exists [row], rows. split; [reflexivity|].
           simpl. congruence.
        -- right. exists (row :: front), back. split; [rewrite E; reflexivity|].
           exact Hc2.
    + intros c1 [Hf Hc1]. split; [exact Hf | left; exact Hc1].
Qed.

Lemma input_rows_exist row :
  In row (select_title_processed input) ->
  title_exists (fst row) input = true.
Proof.
  unfold select_title_processed. intro H. apply in_map_iff in H.
  destruct H as [a [<- Ha]]. simpl. apply title_exists_In.
  apply in_map. exact Ha.
Qed.

(** [merge_database] on a readable input: the output is [merged] over a
    front part of the input rows, all of them when it reports success, and
    without a fault it reports success. *)
Lemma merge_database_spec output :
  exists front back,
    select_title_processed input = front ++ back
    /\ snd (DatabaseMerger.merge_database fail_at now
              (Some (DatabaseMerger.Database input)) output)
       = merged now input front output
    /\ (fst (DatabaseMerger.merge_database fail_at now
               (Some (DatabaseMerger.Database input)) output) = true ->
        back = [])
    /\ (fail_at = None ->
        fst (DatabaseMerger.merge_database fail_at now
               (Some (DatabaseMerger.Database input)) output) = true).
Proof.
  set (rows := select_title_processed input).
  pose proof (merge_articles_spec rows 0 (connect output) input_rows_exist)
    as H.
  unfold wp in H.
  assert (E : DatabaseMerger.merge_database fail_at now
                (Some (DatabaseMerger.Database input)) output
              = match DatabaseMerger.merge_articles fail_at now input 0 rows
                        (connect output) with
                | Ok _ c =>
                    if fires fail_at c then (false, committed c)
                    else (true, working c)
                | Raised c => (false, committed c)
                end).
  { unfold DatabaseMerger.merge_database, DatabaseMerger.merge_transaction.
    rewrite bind_run. fold rows.
    destruct (DatabaseMerger.merge_articles fail_at now input 0 rows
                (connect output)) as [n c | c]; [|reflexivity].
    unfold commit. destruct (fires fail_at c); reflexivity. }
  rewrite E. clear E.
  destruct (DatabaseMerger.merge_articles fail_at now input 0 rows
              (connect output)) as [n c | c]; simpl in H.
  - destruct H as [Hw Hc].
    destruct (fires fail_at c) eqn:F; simpl.
    + apply fires_true in F.
      destruct Hc as [Hc | [front [back [E Hc]]]].
      * exists [], rows. repeat split; auto; try discriminate;
          try (intro Hn; exfalso; exact (F Hn)).
      * exists front, back. repeat split; auto; try discriminate;
          try (intro Hn; exfalso; exact (F Hn)).
    + exists rows, []. rewrite app_nil_r. repeat split; auto.
  - destruct H as [Hf Hc]. simpl.
    destruct Hc as [Hc | [front [back [E Hc]]]].
    + exists [], rows. repeat split; auto; try discriminate;
        try (intro Hn; exfalso; exact (Hf Hn)).
    + exists front, back. repeat split; auto; try discriminate;
        try (intro Hn; exfalso; exact (Hf Hn)).
Qed.

End MergeRefinement.

Lemma merge_database_no_fault now input output :
  DatabaseMerger.merge_database None now
    (Some (DatabaseMerger.Database input)) output
  = (true, merged now input (select_title_processed input) output).
Proof.
  destruct (merge_database_spec None now input output)
    as [front [back [E [Hs [Hb Hn]]]]].
  specialize (Hn eq_refl). specialize (Hb Hn). subst back.
  rewrite app_nil_r in E. subst front.
  destruct (DatabaseMerger.merge_database None now
              (Some (DatabaseMerger.Database input)) output) as [b o].
  simpl in *. congruence.
Qed.

(** ** What a merge does to the output *)

Lemma merge_step_grows now input s row : grows s (merge_step now input s row).
Proof.
  destruct row as [t p]. unfold merge_step.
  set (s1 := insert_or_ignore_article t p now s).
  set (s2 := if p then update_processed_by_title t s1 else s1).
  assert (H2 : grows s s2).
  { eapply grows_trans; [apply grows_insert_article|]. fold s1. unfold s2.
    destruct p; [apply grows_update_by_title | apply grows_refl]. }
  destruct (select_id t input); [|exact H2].
  destruct (select_id t s2); [|exact H2].
  eapply grows_trans; [exact H2 | apply grows_insert_links].
Qed.

Lemma merge_step_ok now input s row :
  store_ok s -> store_ok (merge_step now input s row).
Proof.
  intro Hok. destruct row as [t p]. unfold merge_step.
  set (s1 := insert_or_ignore_article t p now s).
  set (s2 := if p then update_processed_by_title t s1 else s1).
  assert (H2 : store_ok s2).
  { unfold s2, s1. destruct p;
      [apply ok_update_by_title|]; apply ok_insert_article; exact Hok. }
  destruct (select_id t input); [|exact H2].
  destruct (select_id t s2) as [o|] eqn:Ho; [|exact H2].
  apply ok_insert_links; [exact (select_id_In _ _ _ Ho) | exact H2].
Qed.

Lemma merged_grows now input rows s : grows s (merged now input rows s).
Proof.
  revert s. induction rows as [|row rows IH]; intro s; simpl;
    [apply grows_refl|].
  eapply grows_trans; [apply merge_step_grows | apply IH].
Qed.

Lemma merged_ok now input rows s :
  store_ok s -> store_ok (merged now input rows s).
Proof.
  revert s. induction rows as [|row rows IH]; intros s Hok; simpl;
    [exact Hok|].
  apply IH. apply merge_step_ok. exact Hok.
Qed.

(** Whatever the input file and whatever fails, the output only grows and
    keeps the schema. *)
Lemma merge_database_grows fail_at now file output :
  grows output (snd (DatabaseMerger.merge_database fail_at now file output)).
Proof.
  destruct file as [[|input]|]; try apply grows_refl.
  destruct (merge_database_spec fail_at now input output)
    as [front [back [_ [-> _]]]].
  apply merged_grows.
Qed.

Lemma merge_database_ok fail_at now file output :
  store_ok output ->
  store_ok (snd (DatabaseMerger.merge_database fail_at now file output)).
Proof.
  intro Hok. destruct file as [[|input]|]; try exact Hok.
  destruct (merge_database_spec fail_at now input output)
    as [front [back [_ [-> _]]]].
  apply merged_ok. exact Hok.
Qed.

Section MergeMany.

Variable db_fault : string -> option nat.
Variable now : Z.
Variable fs : DatabaseMerger.filesystem.

Lemma merge_multiple_unfold inputs output :
  DatabaseMerger.merge_multiple_databases db_fault now fs inputs output
  = fold_left (DatabaseMerger.merge_turn db_fault now fs) inputs (0, output).
Proof. reflexivity. Qed.

Lemma turn_missing acc db :
  fs db = None -> DatabaseMerger.merge_turn db_fault now fs acc db = acc.
Proof.
  intro H. destruct acc as [n o]. unfold DatabaseMerger.merge_turn.
  rewrite H. reflexivity.
Qed.

Lemma turns_count inputs :
  forall acc,
    fst acc
    <= fst (fold_left (DatabaseMerger.merge_turn db_fault now fs) inputs acc)
    <= fst acc + Z.of_nat (List.length inputs).
Proof.
  induction inputs as [|db inputs IH]; intro acc; simpl; [lia|].
  specialize (IH ((DatabaseMerger.merge_turn db_fault now fs) acc db)).
  assert (H : fst acc
              <= fst (DatabaseMerger.merge_turn db_fault now fs acc db)
              <= fst acc + 1).
  { destruct acc as [n o]. unfold DatabaseMerger.merge_turn.
    destruct (DatabaseMerger.merge_database (db_fault db) now (fs db) o)
      as [[|] o']; simpl; lia. }
  lia.
Qed.

Lemma turns_ok inputs :
  forall acc,
    store_ok (snd acc) ->
    store_ok
      (snd (fold_left (DatabaseMerger.merge_turn db_fault now fs) inputs acc)).
Proof.
  induction inputs as [|db inputs IH]; intros acc Hok; simpl; [exact Hok|].
  apply IH. destruct acc as [n o]. unfold DatabaseMerger.merge_turn.
  pose proof (merge_database_ok (db_fault db) now (fs db) o Hok) as H.
  destruct (DatabaseMerger.merge_database (db_fault db) now (fs db) o)
    as [b o']. exact H.
Qed.

Lemma turns_grow inputs :
  forall acc,
    grows (snd acc)
      (snd (fold_left (DatabaseMerger.merge_turn db_fault now fs) inputs acc)).
Proof.
  induction inputs as [|db inputs IH]; intro acc; simpl; [apply grows_refl|].
  eapply grows_trans; [|apply IH]. destruct acc as [n o].
  unfold DatabaseMerger.merge_turn.
  pose proof (merge_database_grows (db_fault db) now (fs db) o) as H.
  destruct (DatabaseMerger.merge_database (db_fault db) now (fs db) o)
    as [b o']. exact H.
Qed.

End MergeMany.

(** C9: an input path that does not exist makes [merge_database] return
    failure with the output untouched; the whole merge then ends with the
    same output and the same success count as if that path had not been
    listed, so the other inputs are merged as usual, the failed count of the
    report is one more, and the output meets the schema (whatever else
    fails). *)
Theorem missing_input_is_skipped
    (db_fault : string -> option nat) (now : Z)
    (fs : DatabaseMerger.filesystem)
    (before after : list string) (p : string) (output : store)
    (Hmissing : fs p = None) (Hok : store_ok output) :
  let inputs := before ++ p :: after in
  let result :=
    DatabaseMerger.merge_multiple_databases db_fault now fs inputs output in
  (forall out,
      DatabaseMerger.merge_database (db_fault p) now (fs p) out = (false, out))
  /\ result
     = DatabaseMerger.merge_multiple_databases db_fault now fs
         (before ++ after) output
  /\ snd (DatabaseMerger.report (fst result) inputs)
     = snd (DatabaseMerger.report (fst result) (before ++ after)) + 1
  /\ 1 <= snd (DatabaseMerger.report (fst result) inputs)
  /\ store_ok (snd result)
  /\ grows output (snd result).
Proof.
  intros inputs result.
  assert (E : result
              = DatabaseMerger.merge_multiple_databases db_fault now fs
                  (before ++ after) output).
  { unfold result, inputs. rewrite !merge_multiple_unfold, !fold_left_app.
    simpl. rewrite turn_missing by exact Hmissing. reflexivity. }
  split; [intro out; rewrite Hmissing; reflexivity|].
  split; [exact E|].
  assert (Hlen : Z.of_nat (List.length inputs)
                 = Z.of_nat (List.length (before ++ after)) + 1).
  { unfold inputs. rewrite !length_app. simpl. lia. }
  split; [unfold DatabaseMerger.report; simpl; lia|].
  split.
  { unfold DatabaseMerger.report. simpl. rewrite Hlen, E.
    rewrite merge_multiple_unfold.
    pose proof (turns_count db_fault now fs (before ++ after) (0, output)) as H.
    simpl in H. lia. }
  unfold result. rewrite merge_multiple_unfold.
  split; [apply (turns_ok db_fault now fs inputs (0, output)); exact Hok|].
  apply (turns_grow db_fault now fs inputs (0, output)).
Qed.

Lemma empty_ok : store_ok Store.empty.
Proof.
  constructor; simpl; try constructor. intros l [].
Qed.

Lemma missing_input_is_skipped_witness :
  DatabaseMerger.merge_multiple_databases (fun _ => None) 50 one_shard
    (["shard0.db"] ++ "shard1.db" :: []) Store.empty
  = DatabaseMerger.merge_multiple_databases (fun _ => None) 50 one_shard
      (["shard0.db"] ++ []) Store.empty.
Proof.
  apply (missing_input_is_skipped (fun _ => None) 50 one_shard
           ["shard0.db"] [] "shard1.db" Store.empty eq_refl empty_ok).
Defined.

(** ** Merging the same rows again writes nothing *)

Section Absorption.

Variable input : store.

Lemma absorbed_grows s s' row :
  grows s s' -> absorbed input s row -> absorbed input s' row.
Proof.
  intros Hg [Hex [Hdone Hlinks]].
  destruct (select_id_exists _ _ Hex) as [o0 Ho0].
  pose proof (grows_id _ _ Hg _ _ Ho0) as Ho0'.
  split; [exact (select_id_title_exists _ _ _ Ho0')|].
  split; [intro Hp; apply (grows_done _ _ Hg); auto|].
  intros i o to Hi Ho Hto.
  assert (o = o0) by congruence. subst o.
  apply (grows_link _ _ Hg). eapply Hlinks; eauto.
Qed.

(** Once a row has been merged it is absorbed. *)
Lemma merge_step_absorbs now s row :
  absorbed input (merge_step now input s row) row.
Proof.
  destruct row as [t p]. unfold absorbed, merge_step. simpl.
  set (s1 := insert_or_ignore_article t p now s).
  set (s2 := if p then update_processed_by_title t s1 else s1).
  assert (Hex2 : title_exists t s2 = true).
  { unfold s2, s1. destruct p.
    - rewrite title_exists_update_by_title. apply title_exists_insert_article.
    - apply title_exists_insert_article. }
  assert (Hdone2 : p = true -> done t s2).
  { intros ->. unfold s2. split; [exact Hex2|].
    unfold update_processed_by_title. simpl. intros a Ha Ht.
    apply in_map_iff in Ha. destruct Ha as [b [<- Hb]].
    destruct (has_title t b && negb (processed b)) eqn:E; [reflexivity|].
    simpl in Ht. apply andb_false_iff in E. destruct E as [E | E].
    - unfold has_title in E. apply String.eqb_neq in E. contradiction.
    - apply negb_false_iff in E. exact E. }
  destruct (select_id_exists _ _ Hex2) as [o Ho]. rewrite Ho.
  destruct (select_id t input) as [i|] eqn:Hi.
  - set (s3 := fold_left (fun s to => insert_or_ignore_link o to s)
                         (select_links_from i input) s2).
    assert (Hg : grows s2 s3) by apply grows_insert_links.
    split; [exact (select_id_title_exists _ _ _ (grows_id _ _ Hg _ _ Ho))|].
    split; [intro Hp; apply (grows_done _ _ Hg); auto|].
    intros i' o' to Hi' Ho' Hto. injection Hi' as <-.
    rewrite (grows_id _ _ Hg _ _ Ho) in Ho'. injection Ho' as <-.
    unfold s3. apply link_exists_insert_links_iff. right. tauto.
  - split; [exact Hex2|]. split; [exact Hdone2|].
    intros i' o' to Hi'. discriminate.
Qed.

Lemma merged_absorbs now rows :
  forall s row, In row rows -> absorbed input (merged now input rows s) row.
Proof.
  induction rows as [|r rows IH]; intros s row Hin; simpl; [contradiction|].
  destruct Hin as [-> | Hin].
  - apply (absorbed_grows (merge_step now input s row)).
    + apply merged_grows.
    + apply merge_step_absorbs.
  - apply IH. exact Hin.
Qed.

Lemma insert_links_ignored o links s :
  (forall to, In to links -> link_exists o to s = true) ->
  articles (fold_left (fun s to => insert_or_ignore_link o to s) links s)
  = articles s
  /\ Store.links (fold_left (fun s to => insert_or_ignore_link o to s) links s)
     = Store.links s.
Proof.
  revert s. induction links as [|l links IH]; intros s H; simpl; [tauto|].
  assert (El : Store.links (insert_or_ignore_link o l s) = Store.links s).
  { rewrite links_insert_link, (H l); [reflexivity | left; reflexivity]. }
  destruct (IH (insert_or_ignore_link o l s)) as [Ha Hl].
  - intros to Hto. unfold link_exists. rewrite El. apply H. right. exact Hto.
  - rewrite Ha, Hl, articles_insert_link. tauto.
Qed.

(** Merging an absorbed row leaves both tables as they are. *)
Lemma absorbed_step_same now s row :
  absorbed input s row ->
  articles (merge_step now input s row) = articles s
  /\ Store.links (merge_step now input s row) = Store.links s.
Proof.
  destruct row as [t p]. unfold absorbed. simpl.
  intros [Hex [Hdone Hlinks]]. unfold merge_step.
  set (s1 := insert_or_ignore_article t p now s).
  set (s2 := if p then update_processed_by_title t s1 else s1).
  assert (Ea1 : articles s1 = articles s)
    by (unfold s1; rewrite articles_insert_article, Hex; reflexivity).
  assert (El1 : Store.links s1 = Store.links s)
    by (unfold s1; apply links_insert_article).
  assert (Ea2 : articles s2 = articles s).
  { unfold s2. destruct p; [|exact Ea1].
    unfold update_processed_by_title. simpl. rewrite Ea1.
    destruct (Hdone eq_refl) as [_ Hall].
    rewrite <- (map_id (articles s)) at 2. apply map_ext_in.
    intros a Ha. destruct (has_title t a) eqn:E; [|reflexivity].
    unfold has_title in E. apply String.eqb_eq in E.
    rewrite (Hall a Ha E). reflexivity. }
  assert (El2 : Store.links s2 = Store.links s)
    by (unfold s2; destruct p; exact El1).
  destruct (select_id t input) as [i|] eqn:Hi; [|tauto].
  destruct (select_id t s2) as [o|] eqn:Ho; [|tauto].
  destruct (insert_links_ignored o (select_links_from i input) s2) as [Ha Hl].
  - intros to Hto. unfold link_exists. rewrite El2.
    apply (Hlinks i o to); auto.
    unfold select_id in *. rewrite <- Ea2. exact Ho.
  - rewrite Ha, Hl. tauto.
Qed.

Lemma absorbed_rows_same now rows :
  forall s,
    (forall row, In row rows -> absorbed input s row) ->
    articles (merged now input rows s) = articles s
    /\ Store.links (merged now input rows s) = Store.links s.
Proof.
  induction rows as [|r rows IH]; intros s H; simpl; [tauto|].
  destruct (absorbed_step_same now s r (H r (or_introl eq_refl))) as [Ea El].
  destruct (IH (merge_step now input s r)) as [Ea' El'].
  - intros row Hrow. apply (absorbed_grows s); [apply merge_step_grows|].
    apply H. right. exact Hrow.
  - rewrite Ea', El'. tauto.
Qed.

End Absorption.

(** C5: merging an input store into an output store (a fresh one in
    particular) and then merging the same input again leaves the articles
    and the links of the output, and so both counts, as they were after the
    first merge: every insert of the second merge meets its unique key,
    and both merges report success. *)
Theorem merge_twice_same_counts (input output : store) (now1 now2 : Z) :
  let once :=
    DatabaseMerger.merge_database None now1
      (Some (DatabaseMerger.Database input)) output in
  let twice :=
    DatabaseMerger.merge_database None now2
      (Some (DatabaseMerger.Database input)) (snd once) in
  fst once = true /\ fst twice = true
  /\ count_articles (snd twice) = count_articles (snd once)
  /\ count_links (snd twice) = count_links (snd once)
  /\ articles (snd twice) = articles (snd once)
  /\ Store.links (snd twice) = Store.links (snd once).
Proof.
  intros once twice. unfold twice, once.
  rewrite !merge_database_no_fault. simpl.
  set (rows := select_title_processed input).
  destruct (absorbed_rows_same input now2 rows (merged now1 input rows output))
    as [Ea El].
  { intros row Hrow. apply merged_absorbs. exact Hrow. }
  unfold count_articles, count_links. rewrite Ea, El. tauto.
Qed.

Example merge_twice_fresh_output :
  let fresh := DatabaseMerger.init_output_database None in
  let once :=
    snd (DatabaseMerger.merge_database None 50
           (Some (DatabaseMerger.Database upsert_demo)) fresh) in
  let twice :=
    snd (DatabaseMerger.merge_database None 60
           (Some (DatabaseMerger.Database upsert_demo)) once) in
  (count_articles once, count_links once) = (2, 1)
  /\ (count_articles twice, count_links twice) = (2, 1)
  /\ articles once = [Article 1 "Apple" true 50; Article 2 "Banana" false 50].
Proof. repeat split; reflexivity. Qed.

(** ** Where the links of the output come from *)

Section Provenance.

Lemma select_id_inj s t1 t2 i :
  store_ok s -> select_id t1 s = Some i -> select_id t2 s = Some i -> t1 = t2.
Proof.
  intros Hok H1 H2.
  apply select_id_Some in H1. destruct H1 as [a [Ha [Hat Hai]]].
  apply select_id_Some in H2. destruct H2 as [b [Hb [Hbt Hbi]]].
  assert (a = b).
  { apply (id_row_unique (articles s)); auto.
    - apply (ids_unique _ Hok).
    - congruence. }
  congruence.
Qed.

Lemma select_id_of_row s a :
  store_ok s -> In a (articles s) ->
  select_id (article_title a) s = Some (article_id a).
Proof.
  intros Hok Ha.
  assert (Hex : title_exists (article_title a) s = true)
    by (apply title_exists_In; apply in_map; exact Ha).
  destruct (select_id_exists _ _ Hex) as [i Hi]. rewrite Hi.
  apply select_id_Some in Hi. destruct Hi as [r [Hr [Hrt Hri]]].
  assert (r = a).
  { apply (title_row_unique (articles s)); auto. apply (titles_unique _ Hok). }
  congruence.
Qed.

Lemma links_from_grows s s' t to :
  grows s s' -> In to (links_from t s) -> In to (links_from t s').
Proof.
  intros Hg. unfold links_from.
  destruct (select_id t s) as [i|] eqn:Hi; [|contradiction].
  rewrite (grows_id _ _ Hg _ _ Hi), !in_select_links_from.
  apply (grows_link _ _ Hg).
Qed.

Lemma in_links_from t s to :
  In to (links_from t s)
  <-> exists l, In l (links s)
                /\ select_id t s = Some (from_article_id l)
                /\ to_article_title l = to.
Proof.
  unfold links_from, select_links_from. split.
  - destruct (select_id t s) as [i|]; [|contradiction].
    intro H. apply in_map_iff in H. destruct H as [l [Hto Hl]].
    apply filter_In in Hl. destruct Hl as [Hl Hi]. apply Z.eqb_eq in Hi.
    exists l. subst. tauto.
  - intros [l [Hl [Hi Hto]]]. rewrite Hi. apply in_map_iff.
    exists l. split; [exact Hto|]. apply filter_In.
    split; [exact Hl | apply Z.eqb_refl].
Qed.

Variable now : Z.
Variable input : store.

Lemma insert_links_origin o tos s l :
  In l (links (fold_left (fun s to => insert_or_ignore_link o to s) tos s)) ->
  In l (links s) \/ (from_article_id l = o /\ In (to_article_title l) tos).
Proof.
  revert s. induction tos as [|to tos IH]; intros s H; simpl in *; [tauto|].
  apply IH in H. destruct H as [H | [H1 H2]]; [|tauto].
  rewrite links_insert_link in H.
  destruct (link_exists o to s); [tauto|].
  apply in_app_or in H. destruct H as [H | [<- | []]]; [tauto|].
  simpl. tauto.
Qed.

Lemma merge_step_origin s row l :
  In l (links (merge_step now input s row)) ->
  In l (links s)
  \/ (select_id (fst row) (merge_step now input s row)
      = Some (from_article_id l)
      /\ In (to_article_title l) (links_from (fst row) input)).
Proof.
  destruct row as [t p]. simpl. unfold merge_step.
  set (s1 := insert_or_ignore_article t p now s).
  set (s2 := if p then update_processed_by_title t s1 else s1).
  assert (El2 : links s2 = links s).
  { unfold s2, s1. destruct p; simpl; apply links_insert_article. }
  unfold links_from.
  destruct (select_id t input) as [i|] eqn:Hi; [|rewrite El2; tauto].
  destruct (select_id t s2) as [o|] eqn:Ho; [|rewrite El2; tauto].
  intro H. apply insert_links_origin in H. rewrite El2 in H.
  destruct H as [H | [H1 H2]]; [tauto|]. right. split; [|exact H2].
  rewrite H1. apply (grows_id _ _ (grows_insert_links o _ s2)). exact Ho.
Qed.

Lemma merged_origin rows :
  forall s l,
    In l (links (merged now input rows s)) ->
    In l (links s)
    \/ exists t,
         select_id t (merged now input rows s) = Some (from_article_id l)
         /\ In (to_article_title l) (links_from t input).
Proof.
  induction rows as [|row rows IH]; intros s l H; simpl in *; [tauto|].
  apply IH in H. destruct H as [H | H]; [|tauto].
  apply merge_step_origin in H. destruct H as [H | [H1 H2]]; [tauto|].
  right. exists (fst row). split; [|exact H2].
  apply (grows_id _ _ (merged_grows now input rows _)). exact H1.
Qed.

(** The links of a title after a merge: those the output had and those
    the input has, no more and no less. *)
Lemma merged_links_exact output t to :
  store_ok output ->
  In to (links_from t
           (merged now input (select_title_processed input) output))
  <-> In to (links_from t output) \/ In to (links_from t input).
Proof.
  intro Hok.
  set (rows := select_title_processed input).
  set (o' := merged now input rows output).
  assert (Hg : grows output o') by apply merged_grows.
  assert (Hok' : store_ok o') by (apply merged_ok; exact Hok).
  split.
  - intro H. apply in_links_from in H. destruct H as [l [Hl [Hi Hto]]].
    apply merged_origin in Hl. fold rows in Hl. fold o' in Hl.
    destruct Hl as [Hl | [t' [Hi' Hto']]].
    + left. apply in_links_from. exists l. split; [exact Hl|].
      split; [|exact Hto].
      pose proof (links_resolved _ Hok l Hl) as Hr.
      apply in_map_iff in Hr. destruct Hr as [a [Hai Ha]].
      pose proof (select_id_of_row output a Hok Ha) as Hsel.
      rewrite Hai in Hsel.
      pose proof (grows_id _ _ Hg _ _ Hsel) as Hsel'.
      rewrite (select_id_inj o' t (article_title a) _ Hok' Hi Hsel').
      exact Hsel.
    + right. rewrite (select_id_inj o' t t' _ Hok' Hi Hi'), <- Hto.
      exact Hto'.
  - intros [H | H].
    + apply (links_from_grows output); assumption.
    + unfold links_from in H.
      destruct (select_id t input) as [i|] eqn:Hi; [|contradiction].
      pose proof Hi as Hrow. apply select_id_Some in Hrow.
      destruct Hrow as [a [Ha [Hat Hai]]].
      assert (Hin : In (t, processed a) rows).
      { unfold rows, select_title_processed. apply in_map_iff.
        exists a. rewrite Hat. tauto. }
      destruct (merged_absorbs input now rows output _ Hin)
        as [Hex [_ Hlinks]].
      simpl in Hex, Hlinks. fold o' in Hex, Hlinks.
      destruct (select_id_exists _ _ Hex) as [o Ho].
      unfold links_from. rewrite Ho. apply in_select_links_from.
      apply (Hlinks i o to Hi Ho H).
Qed.

Lemma merged_done output t :
  In (t, true) (select_title_processed input) ->
  done t (merged now input (select_title_processed input) output).
Proof.
  intro Hin.
  destruct (merged_absorbs input now _ output _ Hin) as [_ [Hd _]].
  apply Hd. reflexivity.
Qed.

End Provenance.

(** ** OR-merge *)

(** C4: let shard X list a title as unprocessed and shard Y list it as
    processed.  After merging X then Y, or Y then X, into an output store
    that meets the schema (a fresh one in particular), the title is done in
    the output (it has its row and that row is processed), and the links
    that start at it are exactly those it had in the output before, in X
    and in Y.  No merge, whatever its input and whatever fails in it, takes
    a done title back. *)
Theorem merge_or_semantics
    (output X Y : store) (now1 now2 : Z) (t : title)
    (Hok : store_ok output)
    (Hx : In (t, false) (select_title_processed X))
    (Hy : In (t, true) (select_title_processed Y)) :
  let merge := fun now input out =>
    snd (DatabaseMerger.merge_database None now
           (Some (DatabaseMerger.Database input)) out) in
  let xy := merge now2 Y (merge now1 X output) in
  let yx := merge now2 X (merge now1 Y output) in
  done t xy /\ done t yx
  /\ (forall to,
        In to (links_from t xy)
        <-> In to (links_from t output)
            \/ In to (links_from t X) \/ In to (links_from t Y))
  /\ (forall to,
        In to (links_from t yx)
        <-> In to (links_from t output)
            \/ In to (links_from t X) \/ In to (links_from t Y))
  /\ (forall fail_at now file out,
        done t out ->
        done t (snd (DatabaseMerger.merge_database fail_at now file out))).
Proof.
  intros merge xy yx. unfold xy, yx, merge.
  rewrite !merge_database_no_fault. simpl.
  split; [apply merged_done; exact Hy|].
  split.
  { apply (grows_done _ _ (merged_grows now2 X _ _)).
    apply merged_done. exact Hy. }
  split.
  { intro to. rewrite merged_links_exact by (apply merged_ok; exact Hok).
    rewrite merged_links_exact by exact Hok. tauto. }
  split.
  { intro to. rewrite merged_links_exact by (apply merged_ok; exact Hok).
    rewrite merged_links_exact by exact Hok. tauto. }
  intros fail_at now file out.
  apply (grows_done _ _ (merge_database_grows fail_at now file out)).
Qed.

Lemma merge_or_semantics_witness :
  done "Apple"
    (snd (DatabaseMerger.merge_database None 60
            (Some (DatabaseMerger.Database shard_y))
            (snd (DatabaseMerger.merge_database None 50
                    (Some (DatabaseMerger.Database shard_x)) Store.empty)))).
Proof.
  exact (proj1 (merge_or_semantics Store.empty shard_x shard_y 50 60 "Apple"
                  empty_ok (or_introl eq_refl) (or_introl eq_refl))).
Defined.

Example merge_apple_both_orders :
  let merge := fun now input out =>
    snd (DatabaseMerger.merge_database None now
           (Some (DatabaseMerger.Database input)) out) in
  let xy := merge 60 shard_y (merge 50 shard_x Store.empty) in
  let yx := merge 60 shard_x (merge 50 shard_y Store.empty) in
  articles xy = [Article 1 "Apple" true 50; Article 2 "Kiwi" true 50]
  /\ links_from "Apple" xy = ["Pie"; "Cider"]
  /\ articles yx = [Article 1 "Apple" true 50; Article 3 "Kiwi" true 60]
  /\ links_from "Apple" yx = ["Cider"; "Pie"].
Proof. repeat split; reflexivity. Qed.

(* ------------------------------------------------------------------ *)
(** * Further properties of the three programs *)

(** ** The hash is a 128-bit number *)

Lemma le_bytes_range n x : Forall (fun b => 0 <= b < 256) (MD5.le_bytes n x).
Proof.
  revert x. induction n as [|n IH]; intro x; simpl; constructor.
  - apply Z.mod_pos_bound. lia.
  - apply IH.
Qed.

Lemma le_bytes_length n x : List.length (MD5.le_bytes n x) = n.
Proof.
  revert x. induction n as [|n IH]; intro x; simpl; [reflexivity|].
  rewrite IH. reflexivity.
Qed.

Lemma be_value_range bs :
  forall acc k,
    0 <= acc < 256 ^ k -> 0 <= k ->
    Forall (fun b => 0 <= b < 256) bs ->
    0 <= fold_left (fun acc b => 256 * acc + b) bs acc
    < 256 ^ (k + Z.of_nat (List.length bs)).
Proof.
  induction bs as [|b bs IH]; intros acc k Hacc Hk Hbs;
    cbn [fold_left List.length].
  - rewrite Z.add_0_r. exact Hacc.
  - inversion Hbs as [|x l Hb Hbs']; subst.
    rewrite Nat2Z.inj_succ.
    replace (k + Z.succ (Z.of_nat (List.length bs)))
      with ((k + 1) + Z.of_nat (List.length bs)) by lia.
    apply IH; [|lia|exact Hbs'].
    rewrite Z.pow_add_r by lia. change (256 ^ 1) with 256.
    remember (256 ^ k) as m. lia.
Qed.

(** X1: [get_article_hash] is the 16-byte digest read as an unsigned number:
    for every title it lies in [0, 2^128). *)
Theorem article_hash_is_128_bit (t : title) :
  0 <= Partition.get_article_hash t < 2 ^ 128
  /\ List.length (MD5.digest (Partition.encode_utf8 t)) = 16%nat.
Proof.
  assert (Hlen : List.length (MD5.digest (Partition.encode_utf8 t)) = 16%nat).
  { unfold MD5.digest. rewrite !length_app, !le_bytes_length. reflexivity. }
  split; [|exact Hlen].
  unfold Partition.get_article_hash, MD5.be_value.
  pose proof (be_value_range (MD5.digest (Partition.encode_utf8 t)) 0 0) as H.
  rewrite Hlen in H. change (256 ^ (0 + Z.of_nat 16)) with (2 ^ 128) in H.
  apply H; [simpl; lia | lia |].
  unfold MD5.digest. repeat (apply Forall_app; split); apply le_bytes_range.
Qed.

(** ** Seeding the articles table *)

Section Seeding.

Variable now : Z.

Lemma title_exists_insert_article_iff t' t p s :
  title_exists t' (insert_or_ignore_article t p now s) = true
  <-> title_exists t' s = true \/ t' = t.
Proof.
  unfold title_exists at 1. rewrite articles_insert_article.
  destruct (title_exists t s) eqn:E.
  - fold (title_exists t' s). split; [tauto|].
    intros [H | ->]; [exact H | exact E].
  - rewrite existsb_app. simpl. rewrite orb_false_r, orb_true_iff.
    unfold has_title at 2. simpl. rewrite String.eqb_eq.
    fold (title_exists t' s). split; intros [H | H]; auto.
Qed.

Lemma populate_grows titles db :
  grows db (WikiMapper.populate_articles_table now titles db).
Proof.
  revert db. induction titles as [|t titles IH]; intro db; simpl;
    [apply grows_refl|].
  eapply grows_trans; [apply grows_insert_article | apply IH].
Qed.

Lemma populate_ok titles db :
  store_ok db -> store_ok (WikiMapper.populate_articles_table now titles db).
Proof.
  revert db. induction titles as [|t titles IH]; intros db Hok; simpl;
    [exact Hok|].
  apply IH. apply ok_insert_article. exact Hok.
Qed.

Lemma populate_titles titles :
  forall db t,
    title_exists t (WikiMapper.populate_articles_table now titles db) = true
    <-> title_exists t db = true \/ In t titles.
Proof.
  induction titles as [|x titles IH]; intros db t; simpl; [tauto|].
  rewrite IH, title_exists_insert_article_iff.
  split; [intros [[H | H] | H] | intros [H | [H | H]]]; auto.
Qed.

Lemma populate_links titles :
  forall db,
    links (WikiMapper.populate_articles_table now titles db) = links db.
Proof.
  induction titles as [|x titles IH]; intro db; simpl; [reflexivity|].
  rewrite IH. apply links_insert_article.
Qed.

Lemma populate_appends titles :
  forall db,
    exists new,
      articles (WikiMapper.populate_articles_table now titles db)
      = articles db ++ new
      /\ forall a, In a new ->
           processed a = false /\ last_updated a = now
           /\ In (article_title a) titles.
Proof.
  induction titles as [|x titles IH]; intro db; simpl.
  - exists []. rewrite app_nil_r. split; [reflexivity | intros a []].
  - destruct (IH (insert_or_ignore_article x false now db)) as [new [E H]].
    rewrite articles_insert_article in E.
    destruct (title_exists x db).
    + exists new. split; [exact E|]. intros a Ha.
      destruct (H a Ha) as [H1 [H2 H3]]. auto.
    + rewrite <- app_assoc in E. eexists. split; [exact E|].
      intros a [<- | Ha]; [simpl; auto|].
      destruct (H a Ha) as [H1 [H2 H3]]. auto.
Qed.

Lemma populate_known titles :
  forall db,
    (forall t, In t titles -> title_exists t db = true) ->
    articles (WikiMapper.populate_articles_table now titles db) = articles db.
Proof.
  induction titles as [|x titles IH]; intros db H; simpl; [reflexivity|].
  assert (E : articles (insert_or_ignore_article x false now db) = articles db).
  { rewrite articles_insert_article, (H x); [reflexivity | left; reflexivity]. }
  rewrite IH; [exact E|].
  intros t Ht. unfold title_exists. rewrite E. apply H. right. exact Ht.
Qed.

End Seeding.

(** X2: [populate_articles_table] on a store that meets the schema: a title
    has a row afterwards exactly when it had one or is in the list; the
    rows that were there stay in place, unchanged; the rows added are
    unprocessed, stamped with the current time and carry listed titles; no
    link is touched and the schema still holds. *)
Theorem populate_seeds_titles
    (now : Z) (titles : list title) (db : store) (Hok : store_ok db) :
  let db' := WikiMapper.populate_articles_table now titles db in
  store_ok db'
  /\ (forall t, title_exists t db' = true
                <-> title_exists t db = true \/ In t titles)
  /\ (exists new,
        articles db' = articles db ++ new
        /\ forall a, In a new ->
             processed a = false /\ last_updated a = now
             /\ In (article_title a) titles)
  /\ links db' = links db.
Proof.
  intro db'. unfold db'.
  split; [apply populate_ok; exact Hok|].
  split; [apply populate_titles|].
  split; [apply populate_appends | apply populate_links].
Qed.

Lemma populate_seeds_titles_witness :
  store_ok
    (WikiMapper.populate_articles_table 30 ["Cherry"; "Apple"; "Cherry"]
       upsert_demo).
Proof.
  exact (proj1 (populate_seeds_titles 30 ["Cherry"; "Apple"; "Cherry"]
                  upsert_demo upsert_demo_ok)).
Defined.

(** X3: seeding the same titles a second time changes no row and no link,
    whatever the store and however often a title is listed. *)
Theorem populate_twice_same_rows
    (now1 now2 : Z) (titles : list title) (db : store) :
  let once := WikiMapper.populate_articles_table now1 titles db in
  let twice := WikiMapper.populate_articles_table now2 titles once in
  articles twice = articles once /\ links twice = links once.
Proof.
  intros once twice. unfold twice. split.
  - apply populate_known. intros t Ht. unfold once.
    apply populate_titles. right. exact Ht.
  - apply populate_links.
Qed.

Section SeededQueue.

Variable now : Z.

Lemma populate_keeps_order titles :
  forall db,
    StronglySorted by_id (articles db) ->
    StronglySorted by_id
      (articles (WikiMapper.populate_articles_table now titles db)).
Proof.
  induction titles as [|x titles IH]; intros db H; simpl; [exact H|].
  apply IH. apply insert_article_keeps_order. exact H.
Qed.

Lemma populate_new_titles titles :
  forall db,
    NoDup titles ->
    (forall t, In t titles -> title_exists t db = false) ->
    map article_title
      (articles (WikiMapper.populate_articles_table now titles db))
    = map article_title (articles db) ++ titles.
Proof.
  induction titles as [|x titles IH]; intros db Hnd Hnew; simpl.
  - rewrite app_nil_r. reflexivity.
  - inversion Hnd as [|y l Hx Hnd']; subst.
    rewrite IH; [|exact Hnd'|].
    + rewrite articles_insert_article, (Hnew x (or_introl eq_refl)).
      rewrite map_app, <- app_assoc. reflexivity.
    + intros t Ht. destruct (title_exists t _) eqn:E; [|reflexivity].
      apply title_exists_insert_article_iff in E. destruct E as [E | ->].
      * rewrite (Hnew t (or_intror Ht)) in E. discriminate.
      * contradiction.
Qed.

Lemma filter_all {A} (f : A -> bool) l :
  (forall a, In a l -> f a = true) -> filter f l = l.
Proof.
  induction l as [|x l IH]; simpl; intro H; [reflexivity|].
  rewrite (H x (or_introl eq_refl)), IH; [reflexivity|].
  intros a Ha. apply H. right. exact Ha.
Qed.

End SeededQueue.

(** X4: seeding a new store with distinct titles and asking for the next batch
    gives the first [limit] titles in the order they were listed, for every
    limit with 0 <= limit < 2^63. *)
Theorem seeded_backlog_is_fifo
    (now : Z) (titles : list title) (limit : Z)
    (Hnd : NoDup titles) (Hlimit : 0 <= limit < 2 ^ 63) :
  WikiMapper.get_next_unprocessed_articles limit
    (WikiMapper.populate_articles_table now titles
       (WikiMapper.init_database None))
  = Some (firstn (Z.to_nat limit) titles).
Proof.
  set (db := WikiMapper.populate_articles_table now titles
               (WikiMapper.init_database None)).
  unfold WikiMapper.get_next_unprocessed_articles, WikiMapper.sqlite_int.
  replace (- 2 ^ 63 <=? limit) with true by (symmetry; apply Z.leb_le; lia).
  replace (limit <=? 2 ^ 63 - 1) with true by (symmetry; apply Z.leb_le; lia).
  simpl. f_equal. unfold select_unprocessed, limit_rows.
  replace (limit <? 0) with false by (symmetry; apply Z.ltb_ge; lia).
  assert (Hall : filter unprocessed (articles db) = articles db).
  { apply filter_all. intros a Ha.
    destruct (populate_appends now titles (WikiMapper.init_database None))
      as [new [E Hnew]].
    fold db in E. simpl in E. rewrite E in Ha.
    destruct (Hnew a Ha) as [Hp _]. unfold unprocessed. rewrite Hp.
    reflexivity. }
  rewrite Hall, order_by_id_of_sorted.
  - rewrite <- firstn_map. f_equal. unfold db.
    rewrite populate_new_titles; [reflexivity | exact Hnd|].
    intros t _. reflexivity.
  - apply populate_keeps_order. constructor.
Qed.

Lemma seeded_backlog_is_fifo_witness :
  WikiMapper.get_next_unprocessed_articles 2
    (WikiMapper.populate_articles_table 7 ["Cherry"; "Apple"; "Banana"]
       (WikiMapper.init_database None))
  = Some ["Cherry"; "Apple"].
Proof.
  apply (seeded_backlog_is_fifo 7 ["Cherry"; "Apple"; "Banana"] 2).
  - repeat constructor; simpl; intuition discriminate.
  - lia.
Defined.

(** ** What a save never undoes *)

(** X5: [save_article_links], whatever fails in it, on a store that meets the
    schema: the schema still holds, every title keeps its id, a title that
    was done stays done, and no link is removed. *)
Theorem save_only_adds
    (fail_at : option nat) (now : Z) (t : title) (links : list title)
    (db : store) (Hok : store_ok db) :
  let db' := WikiMapper.save_article_links fail_at now t links db in
  store_ok db'
  /\ (forall t' i, select_id t' db = Some i -> select_id t' db' = Some i)
  /\ (forall t', done t' db -> done t' db')
  /\ (forall i to, link_exists i to db = true -> link_exists i to db' = true).
Proof.
  intro db'. unfold db'.
  destruct (save_cases fail_at now t links db) as [-> | ->].
  - split; [exact Hok|]. split; [|split]; auto.
  - pose proof (saved_grows now t links db) as [H1 H2 H3].
    split; [apply saved_ok; exact Hok|]. auto.
Qed.

Lemma save_only_adds_witness :
  store_ok
    (WikiMapper.save_article_links (Some 9%nat) 40 "Kiwi" ["Apple"; "Seed"]
       upsert_demo).
Proof.
  exact (proj1 (save_only_adds (Some 9%nat) 40 "Kiwi" ["Apple"; "Seed"]
                  upsert_demo upsert_demo_ok)).
Defined.

Lemma set_processed_fixed a : processed a = true -> set_processed a = a.
Proof. destruct a as [i t p u]. simpl. intros ->. reflexivity. Qed.

Lemma update_by_id_ignored i s :
  (forall a, In a (articles s) -> article_id a = i -> processed a = true) ->
  articles (update_processed_by_id i s) = articles s.
Proof.
  intro H. unfold update_processed_by_id. simpl.
  rewrite <- (map_id (articles s)) at 2. apply map_ext_in.
  intros a Ha. destruct (article_id a =? i) eqn:E; [|reflexivity].
  apply Z.eqb_eq in E. apply set_processed_fixed. auto.
Qed.

(** X6: saving the same title with the same links a second time changes no
    row of either table, for every store. *)
Theorem save_twice_same_rows
    (now1 now2 : Z) (t : title) (links : list title) (db : store) :
  let once := WikiMapper.save_article_links None now1 t links db in
  let twice := WikiMapper.save_article_links None now2 t links once in
  articles twice = articles once /\ Store.links twice = Store.links once.
Proof.
  intros once twice. unfold twice, once. rewrite !save_no_fault.
  destruct (saved_eq now1 t links db) as [i [Hi E]].
  set (s1 := insert_or_ignore_article t false now1 db) in *.
  set (db1 := saved now1 t links db) in *.
  assert (Hg : grows s1 db1).
  { rewrite E. eapply grows_trans;
      [apply grows_insert_links | apply grows_update_by_id]. }
  assert (Hsel : select_id t db1 = Some i) by (apply (grows_id _ _ Hg); exact Hi).
  assert (Hex : title_exists t db1 = true)
    by exact (select_id_title_exists _ _ _ Hsel).
  assert (Hlinks : forall to, In to links -> link_exists i to db1 = true).
  { intros to Hto. rewrite E. unfold link_exists, update_processed_by_id.
    simpl.
    fold (link_exists i to
            (fold_left (fun s link => insert_or_ignore_link i link s) links s1)).
    apply link_exists_insert_links_iff. right. tauto. }
  assert (Hproc : forall a, In a (articles db1) -> article_id a = i ->
                            processed a = true).
  { intros a Ha Hai. rewrite E in Ha. unfold update_processed_by_id in Ha.
    simpl in Ha. apply in_map_iff in Ha. destruct Ha as [b [<- Hb]].
    destruct (article_id b =? i) eqn:F; [reflexivity|].
    apply Z.eqb_neq in F. contradiction. }
  set (s2 := insert_or_ignore_article t false now2 db1).
  assert (Ea2 : articles s2 = articles db1)
    by (unfold s2; rewrite articles_insert_article, Hex; reflexivity).
  assert (El2 : Store.links s2 = Store.links db1)
    by (unfold s2; apply links_insert_article).
  assert (Hsel2 : select_id t s2 = Some i)
    by (unfold select_id; rewrite Ea2; exact Hsel).
  unfold saved. fold s2. rewrite Hsel2.
  destruct (insert_links_ignored i links s2) as [Ea3 El3].
  { intros to Hto. unfold link_exists. rewrite El2. apply Hlinks. exact Hto. }
  split.
  - rewrite update_by_id_ignored; rewrite Ea3, Ea2; [reflexivity|exact Hproc].
  - simpl. rewrite El3, El2. reflexivity.
Qed.

(** ** Links start at processed articles *)

Section LinksOfProcessed.

Lemma only_processed_insert_article t p now s :
  store_ok s -> links_only_from_processed s ->
  links_only_from_processed (insert_or_ignore_article t p now s).
Proof.
  intros Hok H l a Hl Ha Hid.
  rewrite links_insert_article in Hl. rewrite articles_insert_article in Ha.
  destruct (title_exists t s); [exact (H l a Hl Ha Hid)|].
  apply in_app_or in Ha. destruct Ha as [Ha | [<- | []]];
    [exact (H l a Hl Ha Hid)|].
  exfalso. simpl in Hid.
  apply (next_rowid_fresh article_id (seq_articles s) (articles s)).
  rewrite Hid. apply (links_resolved _ Hok). exact Hl.
Qed.

Lemma only_processed_saved now t tos db :
  store_ok db -> links_only_from_processed db ->
  links_only_from_processed (saved now t tos db).
Proof.
  intros Hok H. destruct (saved_eq now t tos db) as [i [Hi E]].
  set (s1 := insert_or_ignore_article t false now db) in *.
  assert (H1 : links_only_from_processed s1)
    by (apply only_processed_insert_article; assumption).
  rewrite E. intros l a Hl Ha Hid.
  unfold update_processed_by_id in Hl, Ha. simpl in Hl, Ha.
  rewrite articles_insert_links in Ha.
  apply in_map_iff in Ha. destruct Ha as [b [<- Hb]].
  apply insert_links_origin in Hl.
  destruct (article_id b =? i) eqn:F; [reflexivity|].
  apply Z.eqb_neq in F. destruct Hl as [Hl | [Hl _]].
  - exact (H1 l b Hl Hb Hid).
  - congruence.
Qed.

Variable fetch : title -> option (list title).
Variable db_fault : title -> option nat.
Variable now : Z.

Lemma only_processed_batch batch :
  forall db,
    store_ok db -> links_only_from_processed db ->
    links_only_from_processed
      (WikiMapper.process_batch fetch db_fault now batch db).
Proof.
  induction batch as [|a batch IH]; intros db Hok H; simpl; [exact H|].
  destruct (save_cases (db_fault a) now a
              (WikiMapper.get_article_links fetch a) db) as [-> | ->].
  - apply IH; assumption.
  - apply IH; [apply saved_ok | apply only_processed_saved]; assumption.
Qed.

Lemma batch_run_ok fuel batch_size :
  forall db,
    store_ok db ->
    store_ok (final (WikiMapper.batch_run fetch db_fault now fuel batch_size db)).
Proof.
  induction fuel as [|fuel IH]; intros db Hok; simpl; [exact Hok|].
  destruct (WikiMapper.get_next_unprocessed_articles batch_size db)
    as [[|a batch]|]; simpl; try exact Hok.
  apply IH. apply (process_batch_ok fetch db_fault now (a :: batch)). exact Hok.
Qed.

Lemma only_processed_run fuel batch_size :
  forall db,
    store_ok db -> links_only_from_processed db ->
    links_only_from_processed
      (final (WikiMapper.batch_run fetch db_fault now fuel batch_size db)).
Proof.
  induction fuel as [|fuel IH]; intros db Hok H; simpl; [exact H|].
  destruct (WikiMapper.get_next_unprocessed_articles batch_size db)
    as [[|a batch]|]; simpl; try exact H.
  apply IH.
  - apply (process_batch_ok fetch db_fault now (a :: batch)). exact Hok.
  - apply (only_processed_batch (a :: batch)); assumption.
Qed.

End LinksOfProcessed.

(** X7: the crawler attaches links only to articles it marks processed: a run
    of [main] from a new file, whatever the fetcher returns, whatever fails
    in the database and however long it runs, leaves a store that meets the
    schema and in which every link starts at a processed article. *)
Theorem crawl_links_start_at_processed
    (fetch : title -> option (list title)) (db_fault : title -> option nat)
    (now : Z) (fuel : nat) (titles : list title) :
  let db := final (WikiMapper.main fetch db_fault now fuel titles None) in
  store_ok db /\ links_only_from_processed db.
Proof.
  intro db. unfold db, WikiMapper.main, WikiMapper.initial_run. simpl.
  set (seeded := WikiMapper.populate_articles_table now titles Store.empty).
  assert (Hok : store_ok seeded) by (apply populate_ok; exact empty_ok).
  assert (H : links_only_from_processed seeded).
  { intros l a Hl. unfold seeded in Hl. rewrite populate_links in Hl.
    destruct Hl. }
  split; [apply batch_run_ok | apply only_processed_run]; assumption.
Qed.

(** ** The statistics *)

Lemma processed_plus_unprocessed (rows : list article) :
  (List.length (filter processed rows)
   + List.length (filter unprocessed rows))%nat
  = List.length rows.
Proof.
  induction rows as [|a rows IH]; simpl; [reflexivity|].
  unfold unprocessed at 1. destruct (processed a); simpl; lia.
Qed.

(** X8: [get_stats]: the processed count is between 0 and the total, and the
    remaining count is the length of the whole backlog, the batch that
    [get_next_unprocessed_articles] returns for a negative batch size. *)
Theorem stats_count_the_backlog (db : store) :
  let st := WikiMapper.get_stats db in
  0 <= WikiMapper.processed_articles st <= WikiMapper.total_articles st
  /\ WikiMapper.remaining_articles st
     = WikiMapper.total_articles st - WikiMapper.processed_articles st
  /\ WikiMapper.get_next_unprocessed_articles (-1) db
     = Some (select_unprocessed (-1) db)
  /\ WikiMapper.remaining_articles st
     = Z.of_nat (List.length (select_unprocessed (-1) db)).
Proof.
  simpl. unfold count_articles, count_processed.
  pose proof (processed_plus_unprocessed (articles db)) as H.
  split; [lia|]. split; [reflexivity|]. split; [reflexivity|].
  unfold select_unprocessed, limit_rows. simpl.
  rewrite length_map.
  rewrite <- (Permutation_length (order_by_id_perm _)). lia.
Qed.

(** ** The processed flag after a merge is the OR, exactly *)

Section ExactOr.

Variable now : Z.
Variable input : store.

Lemma done_same_articles t s s' :
  articles s = articles s' -> done t s -> done t s'.
Proof.
  unfold done, title_exists. intros <-. tauto.
Qed.

Lemma articles_merge_step s t p :
  articles (merge_step now input s (t, p))
  = articles (if p
              then update_processed_by_title t
                     (insert_or_ignore_article t p now s)
              else insert_or_ignore_article t p now s).
Proof.
  unfold merge_step.
  destruct (select_id t input); [|reflexivity].
  destruct (select_id t _); [|reflexivity].
  apply articles_insert_links.
Qed.

Lemma title_exists_merge_step s t' p t :
  title_exists t (merge_step now input s (t', p)) = true
  <-> title_exists t s = true \/ t = t'.
Proof.
  unfold title_exists at 1. rewrite articles_merge_step.
  destruct p.
  - fold (title_exists t (update_processed_by_title t'
                            (insert_or_ignore_article t' true now s))).
    rewrite title_exists_update_by_title.
    apply title_exists_insert_article_iff.
  - fold (title_exists t (insert_or_ignore_article t' false now s)).
    apply title_exists_insert_article_iff.
Qed.

Lemma merged_cons row rows s :
  merged now input (row :: rows) s
  = merged now input rows (merge_step now input s row).
Proof. reflexivity. Qed.

Lemma merged_titles rows :
  forall s t,
    title_exists t (merged now input rows s) = true
    <-> title_exists t s = true \/ In t (map fst rows).
Proof.
  induction rows as [|[t' p] rows IH]; intros s t; [simpl; tauto|].
  rewrite merged_cons, IH, title_exists_merge_step. simpl.
  split; [intros [[H | H] | H] | intros [H | [H | H]]]; auto.
Qed.

Lemma merge_step_done_iff s t' p t :
  done t (merge_step now input s (t', p))
  <-> done t s \/ (t' = t /\ p = true).
Proof.
  split.
  - intro H.
    destruct (String.eqb t' t) eqn:E.
    + apply String.eqb_eq in E. subst t'. destruct p; [right; tauto|].
      left. apply (done_same_articles t _ _ (articles_merge_step s t false))
        in H.
      destruct H as [Hex Hall]. rewrite articles_insert_article in Hall.
      destruct (title_exists t s) eqn:F; [split; assumption|].
      exfalso.
      assert (X : processed
                    (Article (next_rowid article_id (seq_articles s)
                                (articles s)) t false now) = true).
      { apply Hall; [apply in_or_app; right; left; reflexivity|reflexivity]. }
      discriminate X.
    + apply String.eqb_neq in E. left.
      destruct H as [Hex Hall].
      apply title_exists_merge_step in Hex.
      destruct Hex as [Hex | Hex]; [|congruence].
      split; [exact Hex|]. intros a Ha Ht. apply Hall; [|exact Ht].
      rewrite articles_merge_step.
      assert (Ha1 : In a (articles (insert_or_ignore_article t' p now s))).
      { rewrite articles_insert_article.
        destruct (title_exists t' s); [exact Ha|].
        apply in_or_app. left. exact Ha. }
      destruct p; [|exact Ha1].
      unfold update_processed_by_title. simpl. apply in_map_iff.
      exists a. split; [|exact Ha1].
      unfold has_title. replace (String.eqb (article_title a) t') with false;
        [reflexivity|].
      symmetry. apply String.eqb_neq. congruence.
  - intros [H | [-> ->]].
    + apply (grows_done _ _ (merge_step_grows now input s (t', p))). exact H.
    + destruct (merge_step_absorbs input now s (t, true)) as [_ [Hd _]].
      apply Hd. reflexivity.
Qed.

Lemma merged_done_iff rows :
  forall s t,
    done t (merged now input rows s) <-> done t s \/ In (t, true) rows.
Proof.
  induction rows as [|[t' p] rows IH]; intros s t; [simpl; tauto|].
  rewrite merged_cons, IH, merge_step_done_iff. simpl. split.
  - intros [[H | [-> ->]] | H]; auto.
  - intros [H | [H | H]]; auto. injection H as -> ->. auto.
Qed.

End ExactOr.

(** X9: a merge that does not fail gives the output the titles of both
    stores and nothing else (link targets get no row), and a title is done
    in the output (has its row, processed) exactly when it was done there
    before or the input lists it as processed. *)
Theorem merge_is_exact_or
    (now : Z) (input output : store) (t : title) :
  let out' :=
    snd (DatabaseMerger.merge_database None now
           (Some (DatabaseMerger.Database input)) output) in
  (title_exists t out' = true
   <-> title_exists t output = true \/ title_exists t input = true)
  /\ (done t out'
      <-> done t output \/ In (t, true) (select_title_processed input)).
Proof.
  intro out'. unfold out'. rewrite merge_database_no_fault. simpl. split.
  - rewrite merged_titles, (title_exists_In t input).
    unfold select_title_processed. rewrite map_map. simpl.
    rewrite (map_ext _ article_title (fun a => eq_refl)). tauto.
  - apply merged_done_iff.
Qed.

(** X10: merging two shards into an output store that meets the schema gives,
    in either order, the same titles, the same done titles and the same
    links for every title; only ids and row order can differ. *)
Theorem merge_order_is_immaterial
    (output X Y : store) (now1 now2 now3 now4 : Z) (t : title)
    (Hok : store_ok output) :
  let merge := fun now input out =>
    snd (DatabaseMerger.merge_database None now
           (Some (DatabaseMerger.Database input)) out) in
  let xy := merge now2 Y (merge now1 X output) in
  let yx := merge now4 X (merge now3 Y output) in
  title_exists t xy = title_exists t yx
  /\ (done t xy <-> done t yx)
  /\ (forall to, In to (links_from t xy) <-> In to (links_from t yx)).
Proof.
  intros merge xy yx. unfold xy, yx, merge.
  rewrite !merge_database_no_fault. simpl.
  split; [|split].
  - apply Bool.eq_true_iff_eq. rewrite !merged_titles. tauto.
  - rewrite !merged_done_iff. tauto.
  - intro to.
    rewrite (merged_links_exact now2 Y) by (apply merged_ok; exact Hok).
    rewrite (merged_links_exact now4 X) by (apply merged_ok; exact Hok).
    rewrite !merged_links_exact by exact Hok. tauto.
Qed.

Lemma merge_order_is_immaterial_witness :
  title_exists "Kiwi"
    (snd (DatabaseMerger.merge_database None 2
            (Some (DatabaseMerger.Database shard_y))
            (snd (DatabaseMerger.merge_database None 1
                    (Some (DatabaseMerger.Database shard_x)) upsert_demo))))
  = title_exists "Kiwi"
      (snd (DatabaseMerger.merge_database None 4
              (Some (DatabaseMerger.Database shard_x))
              (snd (DatabaseMerger.merge_database None 3
                      (Some (DatabaseMerger.Database shard_y)) upsert_demo)))).
Proof.
  exact (proj1 (merge_order_is_immaterial upsert_demo shard_x shard_y
                  1 2 3 4 "Kiwi" upsert_demo_ok)).
Defined.

(** ** The scheduler: edge batch sizes, stall and completion *)

Lemma batch_titles_pending limit db batch :
  WikiMapper.get_next_unprocessed_articles limit db = Some batch ->
  forall t, In t batch -> pending t db.
Proof.
  unfold WikiMapper.get_next_unprocessed_articles.
  destruct (WikiMapper.sqlite_int limit); [|discriminate].
  intro H. injection H as <-. unfold select_unprocessed.
  intros t Hin. apply in_map_iff in Hin. destruct Hin as [a [Ht Ha]].
  apply in_limit_rows in Ha.
  apply (Permutation_in _ (Permutation_sym (order_by_id_perm _))) in Ha.
  apply filter_In in Ha. destruct Ha as [Ha Hu].
  exists a. unfold unprocessed in Hu. apply negb_true_iff in Hu. tauto.
Qed.

Lemma sqlite_int_usable n :
  usable_batch_size n -> WikiMapper.sqlite_int n = true.
Proof.
  intros [H _]. unfold WikiMapper.sqlite_int.
  apply andb_true_iff. split; apply Z.leb_le; lia.
Qed.

Lemma limit_rows_nonempty {R} limit (rows : list R) :
  limit <> 0 -> rows <> [] -> limit_rows limit rows <> [].
Proof.
  intros Hl Hr. unfold limit_rows. destruct (limit <? 0) eqn:E; [exact Hr|].
  apply Z.ltb_ge in E. destruct rows as [|r rows]; [contradiction|].
  destruct (Z.to_nat limit) as [|n] eqn:F; [lia|]. simpl. discriminate.
Qed.

(** With a usable batch size the batch is empty only when nothing is
    pending. *)
Lemma usable_batch limit db :
  usable_batch_size limit ->
  exists batch,
    WikiMapper.get_next_unprocessed_articles limit db = Some batch
    /\ (batch = [] -> backlog db = 0%nat).
Proof.
  intro Hu. unfold WikiMapper.get_next_unprocessed_articles.
  rewrite (sqlite_int_usable _ Hu). eexists. split; [reflexivity|].
  unfold select_unprocessed, backlog. intro H.
  destruct (filter unprocessed (articles db)) as [|a rows] eqn:F;
    [reflexivity|].
  exfalso. apply map_eq_nil in H. revert H.
  apply limit_rows_nonempty; [exact (proj2 Hu)|].
  intro H.
  pose proof (Permutation_length (order_by_id_perm (a :: rows))) as L.
  rewrite H in L. discriminate L.
Qed.

(** X11: a batch size of 0 makes [batch_run] report completion at once, and a
    batch size outside 64 bits makes it abort at once; in both cases the
    store is left as it was, backlog included. *)
Theorem batch_size_edges
    (fetch : title -> option (list title)) (db_fault : title -> option nat)
    (now : Z) (fuel : nat) (batch_size : Z) (db : store)
    (Hedge : batch_size = 0 \/ batch_size < - 2 ^ 63 \/ 2 ^ 63 <= batch_size) :
  WikiMapper.batch_run fetch db_fault now (S fuel) batch_size db
  = if batch_size =? 0 then WikiMapper.Complete db else WikiMapper.Aborted db.
Proof.
  simpl. unfold WikiMapper.get_next_unprocessed_articles.
  destruct Hedge as [-> | Hout]; [reflexivity|].
  replace (batch_size =? 0) with false by (symmetry; apply Z.eqb_neq; lia).
  replace (WikiMapper.sqlite_int batch_size) with false; [reflexivity|].
  symmetry. unfold WikiMapper.sqlite_int. apply andb_false_iff.
  destruct Hout; [left; apply Z.leb_gt | right; apply Z.leb_gt]; lia.
Qed.

Lemma batch_size_edges_witness :
  WikiMapper.batch_run always_fails no_fault 5 (S 3) 0 backlog_demo
  = WikiMapper.Complete backlog_demo.
Proof.
  apply (batch_size_edges always_fails no_fault 5 3 0 backlog_demo).
  left. reflexivity.
Defined.

Section Stall.

Variable fetch : title -> option (list title).
Variable db_fault : title -> option nat.
Variable now : Z.
Variable t : title.
Variable k : nat.
Hypothesis Hfault : db_fault t = Some k.
Hypothesis Hk : (k <= List.length (WikiMapper.get_article_links fetch t) + 3)%nat.

Lemma save_fault_unchanged tos db :
  (k <= List.length tos + 3)%nat ->
  WikiMapper.save_article_links (Some k) now t tos db = db.
Proof.
  intro H. unfold WikiMapper.save_article_links.
  pose proof (save_transaction_raises db now t tos k H) as W. unfold wp in W.
  destruct (WikiMapper.save_transaction (Some k) now t tos (connect db))
    as [u c | c]; [contradiction|].
  simpl. exact W.
Qed.

Lemma pending_saved_other t' tos db :
  t' <> t -> store_ok db -> pending t db -> pending t (saved now t' tos db).
Proof.
  intros Hne Hok [a [Ha [Hat Hap]]].
  destruct (saved_eq now t' tos db) as [i [Hi E]].
  set (s1 := insert_or_ignore_article t' false now db) in *.
  assert (Hok1 : store_ok s1) by (apply ok_insert_article; exact Hok).
  assert (Ha1 : In a (articles s1)).
  { unfold s1. rewrite articles_insert_article.
    destruct (title_exists t' db); [exact Ha|].
    apply in_or_app. left. exact Ha. }
  exists a. split; [|tauto].
  rewrite E. unfold update_processed_by_id. simpl.
  rewrite articles_insert_links. apply in_map_iff. exists a.
  split; [|exact Ha1].
  destruct (article_id a =? i) eqn:F; [|reflexivity].
  exfalso. apply Z.eqb_eq in F.
  apply select_id_Some in Hi. destruct Hi as [r [Hr [Hrt Hri]]].
  assert (a = r).
  { apply (id_row_unique (articles s1)); auto.
    - apply (ids_unique _ Hok1).
    - congruence. }
  congruence.
Qed.

Lemma pending_batch batch :
  forall db,
    store_ok db -> pending t db ->
    pending t (WikiMapper.process_batch fetch db_fault now batch db).
Proof.
  induction batch as [|x batch IH]; intros db Hok Hp; simpl; [exact Hp|].
  destruct (String.eqb x t) eqn:E.
  - apply String.eqb_eq in E. subst x.
    rewrite Hfault, save_fault_unchanged by exact Hk. apply IH; assumption.
  - apply String.eqb_neq in E.
    destruct (save_cases (db_fault x) now x
                (WikiMapper.get_article_links fetch x) db) as [-> | ->].
    + apply IH; assumption.
    + apply IH; [apply saved_ok; exact Hok|].
      apply pending_saved_other; assumption.
Qed.

Lemma stalls fuel batch_size :
  usable_batch_size batch_size ->
  forall db,
    store_ok db -> pending t db ->
    exists db',
      WikiMapper.batch_run fetch db_fault now fuel batch_size db
      = WikiMapper.Running db'
      /\ store_ok db' /\ pending t db'.
Proof.
  intro Hu. induction fuel as [|fuel IH]; intros db Hok Hp; simpl.
  - exists db. tauto.
  - destruct (usable_batch batch_size db Hu) as [batch [E Hempty]].
    rewrite E. destruct batch as [|x batch].
    + exfalso. specialize (Hempty eq_refl).
      destruct Hp as [a [Ha [_ Hap]]]. unfold backlog in Hempty.
      assert (Hin : In a (filter unprocessed (articles db))).
      { apply filter_In. split; [exact Ha|].
        unfold unprocessed. rewrite Hap. reflexivity. }
      destruct (filter unprocessed (articles db)); [destruct Hin|discriminate].
    + apply IH.
      * apply (process_batch_ok fetch db_fault now (x :: batch)). exact Hok.
      * apply (pending_batch (x :: batch)); assumption.
Qed.

End Stall.

(** X12: the stall of the scheduler: when the database fails every time one
    pending title is saved, [batch_run] with a usable batch size never
    completes and never aborts; after any number of passes it is still
    running and the title is still pending. *)
Theorem batch_run_stalls_on_save_failure
    (fetch : title -> option (list title)) (db_fault : title -> option nat)
    (now : Z) (t : title) (k : nat) (batch_size : Z) (db : store) (fuel : nat)
    (Hfault : db_fault t = Some k)
    (Hk : (k <= List.length (WikiMapper.get_article_links fetch t) + 3)%nat)
    (Hsize : usable_batch_size batch_size)
    (Hok : store_ok db) (Hpending : pending t db) :
  exists db',
    WikiMapper.batch_run fetch db_fault now fuel batch_size db
    = WikiMapper.Running db'
    /\ pending t db'.
Proof.
  destruct (stalls fetch db_fault now t k Hfault Hk fuel batch_size Hsize
              db Hok Hpending) as [db' [E [_ Hp]]].
  exists db'. tauto.
Qed.

Lemma batch_run_stalls_on_save_failure_witness :
  exists db',
    WikiMapper.batch_run always_fails save_always_fails 5 7 100 stall_demo
    = WikiMapper.Running db'
    /\ pending "X" db'.
Proof.
  apply (batch_run_stalls_on_save_failure always_fails save_always_fails 5
           "X" 0%nat 100 stall_demo 7 eq_refl).
  - simpl. lia.
  - unfold usable_batch_size. lia.
  - exact stall_demo_ok.
  - exists (Article 1 "X" false 0). simpl. tauto.
Defined.

Section Completion.

Variable fetch : title -> option (list title).
Variable now : Z.

Lemma saved_existing_articles t tos db i :
  select_id t db = Some i ->
  articles (saved now t tos db)
  = map (fun a => if article_id a =? i then set_processed a else a)
        (articles db).
Proof.
  intro Hi.
  assert (Hex : title_exists t db = true)
    by exact (select_id_title_exists _ _ _ Hi).
  assert (Ea : articles (insert_or_ignore_article t false now db) = articles db)
    by (rewrite articles_insert_article, Hex; reflexivity).
  unfold saved.
  replace (select_id t (insert_or_ignore_article t false now db))
    with (Some i) by (unfold select_id in *; rewrite Ea; symmetry; exact Hi).
  unfold update_processed_by_id. simpl.
  rewrite articles_insert_links, Ea. reflexivity.
Qed.

Lemma backlog_mark i (rows : list article) :
  (List.length
     (filter unprocessed
        (map (fun a => if (article_id a =? i)%Z then set_processed a else a)
             rows))
   <= List.length (filter unprocessed rows))%nat.
Proof.
  induction rows as [|a rows IH]; simpl; [lia|].
  destruct (article_id a =? i); simpl.
  - destruct (unprocessed a); simpl; lia.
  - destruct (unprocessed a); simpl; lia.
Qed.

Lemma backlog_mark_strict i (rows : list article) a :
  In a rows -> article_id a = i -> processed a = false ->
  (List.length
     (filter unprocessed
        (map (fun a => if (article_id a =? i)%Z then set_processed a else a)
             rows))
   < List.length (filter unprocessed rows))%nat.
Proof.
  induction rows as [|b rows IH]; simpl; [tauto|].
  intros [-> | Hin] Hi Hp.
  - rewrite Hi, Z.eqb_refl. simpl. unfold unprocessed at 2. rewrite Hp. simpl.
    pose proof (backlog_mark i rows). lia.
  - specialize (IH Hin Hi Hp).
    destruct (article_id b =? i); simpl.
    + destruct (unprocessed b); simpl; lia.
    + destruct (unprocessed b); simpl; lia.
Qed.

Lemma saved_existing_titles t tos db :
  title_exists t db = true ->
  map article_title (articles (saved now t tos db))
  = map article_title (articles db).
Proof.
  intro Hex. destruct (select_id_exists _ _ Hex) as [i Hi].
  rewrite (saved_existing_articles t tos db i Hi), map_map.
  apply map_ext. intro a. destruct (article_id a =? i); reflexivity.
Qed.

Lemma saved_existing_backlog t tos db :
  title_exists t db = true ->
  (backlog (saved now t tos db) <= backlog db)%nat.
Proof.
  intro Hex. destruct (select_id_exists _ _ Hex) as [i Hi].
  unfold backlog. rewrite (saved_existing_articles t tos db i Hi).
  apply backlog_mark.
Qed.

Lemma saved_pending_backlog t tos db :
  store_ok db -> pending t db ->
  (backlog (saved now t tos db) < backlog db)%nat.
Proof.
  intros Hok [a [Ha [Hat Hap]]].
  pose proof (select_id_of_row db a Hok Ha) as Hi. rewrite Hat in Hi.
  unfold backlog. rewrite (saved_existing_articles t tos db _ Hi).
  apply (backlog_mark_strict _ _ a); auto.
Qed.

Lemma title_exists_same_titles t s s' :
  map article_title (articles s') = map article_title (articles s) ->
  title_exists t s = true -> title_exists t s' = true.
Proof.
  intros E H. apply title_exists_In. rewrite E. apply title_exists_In. exact H.
Qed.

Lemma batch_no_fault batch :
  forall db,
    store_ok db ->
    (forall t, In t batch -> title_exists t db = true) ->
    let db' := WikiMapper.process_batch fetch (fun _ => None) now batch db in
    store_ok db'
    /\ (backlog db' <= backlog db)%nat
    /\ map article_title (articles db') = map article_title (articles db).
Proof.
  induction batch as [|x batch IH]; intros db Hok Hex; simpl; [auto|].
  rewrite save_no_fault.
  set (tos := WikiMapper.get_article_links fetch x).
  assert (Hx : title_exists x db = true) by (apply Hex; left; reflexivity).
  pose proof (saved_existing_titles x tos db Hx) as Et.
  destruct (IH (saved now x tos db)) as [H1 [H2 H3]].
  - apply saved_ok. exact Hok.
  - intros t Ht. apply (title_exists_same_titles t db); [exact Et|].
    apply Hex. right. exact Ht.
  - split; [exact H1|]. split; [|congruence].
    pose proof (saved_existing_backlog x tos db Hx). lia.
Qed.

Lemma pending_exists t db : pending t db -> title_exists t db = true.
Proof.
  intros [a [Ha [Hat _]]]. apply title_exists_In. rewrite <- Hat.
  apply in_map. exact Ha.
Qed.

Lemma backlog_zero db :
  backlog db = 0%nat -> forall a, In a (articles db) -> processed a = true.
Proof.
  unfold backlog. intros H a Ha.
  destruct (processed a) eqn:E; [reflexivity|]. exfalso.
  assert (Hin : In a (filter unprocessed (articles db))).
  { apply filter_In. split; [exact Ha|]. unfold unprocessed. rewrite E.
    reflexivity. }
  destruct (filter unprocessed (articles db)); [destruct Hin|discriminate].
Qed.

Lemma completes batch_size :
  usable_batch_size batch_size ->
  forall n db,
    (backlog db <= n)%nat -> store_ok db ->
    exists db',
      WikiMapper.batch_run fetch (fun _ => None) now (S n) batch_size db
      = WikiMapper.Complete db'
      /\ backlog db' = 0%nat
      /\ store_ok db'
      /\ map article_title (articles db') = map article_title (articles db).
Proof.
  intro Hu. induction n as [|n IH]; intros db Hn Hok.
  - cbn [WikiMapper.batch_run].
    destruct (usable_batch batch_size db Hu) as [batch [E Hempty]].
    rewrite E. destruct batch as [|x batch].
    + exists db. split; [reflexivity|]. split; [lia|].
      split; [exact Hok | reflexivity].
    + exfalso.
      pose proof (batch_titles_pending _ _ _ E x (or_introl eq_refl)) as Hp.
      pose proof (saved_pending_backlog x [] db Hok Hp). lia.
  - cbn [WikiMapper.batch_run].
    destruct (usable_batch batch_size db Hu) as [batch [E Hempty]].
    rewrite E. destruct batch as [|x batch].
    + exists db. split; [reflexivity|]. split; [exact (Hempty eq_refl)|].
      split; [exact Hok | reflexivity].
    + pose proof (batch_titles_pending _ _ _ E) as Hp.
      set (tos := WikiMapper.get_article_links fetch x).
      set (db1 := saved now x tos db).
      assert (Hstep : WikiMapper.process_batch fetch (fun _ => None) now
                        (x :: batch) db
                      = WikiMapper.process_batch fetch (fun _ => None) now
                          batch db1).
      { simpl. rewrite save_no_fault. reflexivity. }
      assert (Hx : pending x db) by (apply Hp; left; reflexivity).
      pose proof (saved_pending_backlog x tos db Hok Hx) as Hlt.
      pose proof (saved_existing_titles x tos db (pending_exists _ _ Hx)) as Et.
      destruct (batch_no_fault batch db1) as [Hok' [Hle Et']].
      { apply saved_ok. exact Hok. }
      { intros t Ht. apply (title_exists_same_titles t db); [exact Et|].
        apply pending_exists. apply Hp. right. exact Ht. }
      rewrite Hstep.
      destruct (IH (WikiMapper.process_batch fetch (fun _ => None) now
                      batch db1)) as [db' [R [Z0 [Hok'' Et'']]]].
      { fold db1 in Hlt. lia. }
      { exact Hok'. }
      exists db'. split; [exact R|]. split; [exact Z0|].
      split; [exact Hok''|]. rewrite Et'', Et'. exact Et.
Qed.

End Completion.

(** X13: completion of the scheduler: on a store that meets the schema, with a
    database that never fails and a usable batch size, [batch_run] stops
    after at most one pass per unprocessed row plus the final empty query;
    it reports completion, every article is then processed (whether its
    fetch worked or not), and the articles are the same titles in the same
    order. *)
Theorem batch_run_completes
    (fetch : title -> option (list title)) (now : Z)
    (batch_size : Z) (db : store)
    (Hsize : usable_batch_size batch_size) (Hok : store_ok db) :
  exists db',
    WikiMapper.batch_run fetch (fun _ => None) now (S (backlog db))
      batch_size db
    = WikiMapper.Complete db'
    /\ (forall a, In a (articles db') -> processed a = true)
    /\ WikiMapper.remaining_articles (WikiMapper.get_stats db') = 0
    /\ map article_title (articles db') = map article_title (articles db)
    /\ store_ok db'.
Proof.
  destruct (completes fetch now batch_size Hsize (backlog db) db
              (Nat.le_refl _) Hok) as [db' [R [Z0 [Hok' Et]]]].
  exists db'. split; [exact R|]. split; [apply backlog_zero; exact Z0|].
  split; [|tauto].
  simpl. unfold count_articles, count_processed.
  pose proof (processed_plus_unprocessed (articles db')) as H.
  unfold backlog in Z0. lia.
Qed.

Lemma batch_run_completes_witness :
  exists db',
    WikiMapper.batch_run always_fails (fun _ => None) 5
      (S (backlog backlog_demo)) 1 backlog_demo
    = WikiMapper.Complete db'
    /\ (forall a, In a (articles db') -> processed a = true)
    /\ WikiMapper.remaining_articles (WikiMapper.get_stats db') = 0
    /\ map article_title (articles db')
       = map article_title (articles backlog_demo)
    /\ store_ok db'.
Proof.
  apply (batch_run_completes always_fails 5 1 backlog_demo).
  - unfold usable_batch_size. lia.
  - constructor; simpl.
    + repeat constructor; simpl; intuition lia.
    + repeat constructor; simpl; intuition discriminate.
    + constructor.
    + constructor.
    + intros l [].
Defined.

(** ** One store per machine *)

(** X14: with N >= 1 machines, each seeding a new store from the same title
    list: a title has a row in the store of machine [i] exactly when it is
    listed and [i] is its index, and that index is a valid machine. *)
Theorem machine_stores_partition_titles
    (N : Z) (now : Z) (all_titles : list title) (t : title) (HN : 1 <= N) :
  (forall i,
      title_exists t
        (WikiMapperMultiMachine.populate_articles_table i N now all_titles
           (WikiMapper.init_database None)) = true
      <-> In t all_titles /\ i = Partition.assign t N)
  /\ 0 <= Partition.assign t N < N.
Proof.
  split.
  - intro i. unfold WikiMapperMultiMachine.populate_articles_table.
    rewrite populate_titles, filter_In.
    unfold Partition.should_process_article, Partition.assign.
    rewrite Z.eqb_eq. simpl.
    split; [intros [H | [H1 H2]] | intros [H1 H2]]; try discriminate; auto.
  - unfold Partition.assign. apply Z.mod_pos_bound. lia.
Qed.

Lemma machine_stores_partition_titles_witness :
  0 <= Partition.assign "Apple" 3 < 3.
Proof.
  exact (proj2 (machine_stores_partition_titles 3 9 ["Apple"; "Kiwi"] "Apple"
                  ltac:(lia))).
Defined.

Lemma list_ascii_append s1 s2 :
  list_ascii_of_string (String.append s1 s2)
  = list_ascii_of_string s1 ++ list_ascii_of_string s2.
Proof.
  induction s1 as [|c s1 IH]; simpl; [reflexivity|]. rewrite IH. reflexivity.
Qed.

Lemma list_ascii_inj s1 s2 :
  list_ascii_of_string s1 = list_ascii_of_string s2 -> s1 = s2.
Proof.
  intro H. rewrite <- (string_of_list_ascii_of_string s1),
                   <- (string_of_list_ascii_of_string s2), H.
  reflexivity.
Qed.

Lemma append_cancel_r s1 s2 t :
  String.append s1 t = String.append s2 t -> s1 = s2.
Proof.
  intro H. apply list_ascii_inj.
  apply (f_equal list_ascii_of_string) in H.
  rewrite !list_ascii_append in H. exact (app_inv_tail _ _ _ H).
Qed.

(** The decimal text of an integer determines it. *)
Lemma str_inj i j :
  WikiMapperMultiMachine.str i = WikiMapperMultiMachine.str j -> i = j.
Proof.
  unfold WikiMapperMultiMachine.str. intro H.
  apply DecimalZ.to_int_inj.
  assert (Hn : forall z, Z.to_int z <> Decimal.Pos Decimal.Nil
                         /\ Z.to_int z <> Decimal.Neg Decimal.Nil).
  { intro z. destruct z; simpl; split; try discriminate;
      intro E; injection E as E;
      exact (DecimalPos.Unsigned.to_uint_nonnil _ E). }
  apply (f_equal NilZero.int_of_string) in H.
  rewrite !NilZero.isi in H by apply Hn.
  congruence.
Qed.

(** X15: two valid machines that leave [--db-path] out open the same file only
    if they are the same machine; with an explicit path other than the
    default, every machine opens that one path. *)
Theorem machine_db_paths
    (N i j : Z) (Hi : 0 <= i < N) (Hj : 0 <= j < N) :
  (WikiMapperMultiMachine.main_db_path i N None
   = WikiMapperMultiMachine.main_db_path j N None <-> i = j)
  /\ forall p,
       p <> "wiki_mapping.db" ->
       WikiMapperMultiMachine.main_db_path i N (Some p) = Some p
       /\ WikiMapperMultiMachine.main_db_path j N (Some p) = Some p.
Proof.
  assert (V : forall m, 0 <= m < N ->
                (m <? 0) || (m >=? N) = false).
  { intros m Hm. apply orb_false_iff. split; [apply Z.ltb_ge; lia|].
    rewrite Z.geb_leb. apply Z.leb_gt. lia. }
  split.
  - split; [|intros ->; reflexivity].
    unfold WikiMapperMultiMachine.main_db_path. rewrite (V i Hi), (V j Hj).
    simpl. intro H. injection H as H.
    apply append_cancel_r in H.
    exact (str_inj _ _ H).
  - intros p Hp. unfold WikiMapperMultiMachine.main_db_path.
    rewrite (V i Hi), (V j Hj). simpl.
    unfold WikiMapperMultiMachine.default_db_path.
    apply String.eqb_neq in Hp. rewrite Hp. simpl. tauto.
Qed.

Lemma machine_db_paths_witness :
  WikiMapperMultiMachine.main_db_path 0 4 (Some "shared.db") = Some "shared.db"
  /\ WikiMapperMultiMachine.main_db_path 3 4 (Some "shared.db")
     = Some "shared.db".
Proof.
  apply (proj2 (machine_db_paths 4 0 3 ltac:(lia) ltac:(lia))).
  discriminate.
Defined.

(** ** A failed merge keeps the last checkpoint *)

Section Checkpoints.

Variable fail_at : option nat.
Variable now : Z.
Variable input : store.




End Checkpoints.



(** ** Counting the merged inputs *)

Section Counting.

Variable now : Z.
Variable fs : DatabaseMerger.filesystem.





End Counting.


(** ** The links a page yields *)

Section Cleaning.

Lemma replace_underscores_none s c :
  In c (list_ascii_of_string (WikiMapper.replace_underscores s)) ->
  c <> "_"%char.
Proof.
  induction s as [|a s IH]; simpl; [tauto|].
  intros [<- | H]; [|exact (IH H)].
  destruct (Ascii.eqb a "_") eqn:E; [discriminate|].
  apply Ascii.eqb_neq. exact E.
Qed.

Lemma prefix_replace p :
  plain p = true ->
  forall s,
    String.prefix p (WikiMapper.replace_underscores s) = String.prefix p s.
Proof.
  unfold plain. induction p as [|a p IH]; intros Hp s.
  - destruct s; reflexivity.
  - simpl in Hp. apply andb_true_iff in Hp. destruct Hp as [Ha Hp].
    apply andb_true_iff in Ha. destruct Ha as [Hu Hs].
    apply negb_true_iff in Hu, Hs.
    apply Ascii.eqb_neq in Hu, Hs.
    destruct s as [|c s]; [reflexivity|].
    cbn [WikiMapper.replace_underscores String.prefix].
    destruct (Ascii.eqb c "_") eqn:E.
    + apply Ascii.eqb_eq in E. subst c.
      destruct (ascii_dec a " "); [contradiction|].
      destruct (ascii_dec a "_"); [contradiction|]. reflexivity.
    + destruct (ascii_dec a c); [apply IH; exact Hp | reflexivity].
Qed.

Lemma contains_replace p :
  plain p = true ->
  forall s,
    WikiMapper.contains p (WikiMapper.replace_underscores s)
    = WikiMapper.contains p s.
Proof.
  intros Hp s. induction s as [|c s IH].
  - reflexivity.
  - cbn [WikiMapper.replace_underscores WikiMapper.contains].
    rewrite IH. f_equal. exact (prefix_replace p Hp (String c s)).
Qed.

Lemma special_prefixes_plain p :
  In p WikiMapper.special_prefixes -> plain p = true.
Proof.
  simpl. intros [<- | [<- | [<- | [<- | [<- | [<- | []]]]]]]; reflexivity.
Qed.

Variable unquote : string -> string.

Lemma clean_links_fold links :
  forall acc,
    fold_left
      (fun clean_links link =>
         let decoded := unquote link in
         if negb (existsb (fun prefix => WikiMapper.contains prefix decoded)
                          WikiMapper.special_prefixes)
         then clean_links ++ [WikiMapper.replace_underscores decoded]
         else clean_links)
      links acc
    = acc
      ++ map WikiMapper.replace_underscores
           (filter
              (fun decoded =>
                 negb (existsb (fun prefix => WikiMapper.contains prefix decoded)
                               WikiMapper.special_prefixes))
              (map unquote links)).
Proof.
  induction links as [|l links IH]; intro acc; cbn [fold_left map filter].
  - rewrite app_nil_r. reflexivity.
  - rewrite IH. cbv zeta.
    destruct (negb (existsb (fun prefix => WikiMapper.contains prefix (unquote l))
                            WikiMapper.special_prefixes)).
    + cbn [map]. rewrite <- app_assoc. reflexivity.
    + reflexivity.
Qed.

End Cleaning.

(** X18: every link that the cleaning loop of [get_article_links] keeps is a
    decoded match with its underscores replaced: it holds no underscore and
    none of the six special-page markers, and the loop keeps the matches in
    their order, dropping exactly those whose decoded text holds a
    marker. *)
Theorem cleaned_links_are_plain_titles
    (unquote : string -> string) (links : list string) (r : string)
    (Hin : In r (WikiMapper.clean_links unquote links)) :
  (forall c, In c (list_ascii_of_string r) -> c <> "_"%char)
  /\ (forall p, In p WikiMapper.special_prefixes ->
                WikiMapper.contains p r = false)
  /\ (exists link,
        In link links /\ r = WikiMapper.replace_underscores (unquote link))
  /\ WikiMapper.clean_links unquote links
     = map WikiMapper.replace_underscores
         (filter
            (fun decoded =>
               negb (existsb (fun prefix => WikiMapper.contains prefix decoded)
                             WikiMapper.special_prefixes))
            (map unquote links)).
Proof.
  assert (E : WikiMapper.clean_links unquote links
              = map WikiMapper.replace_underscores
                  (filter
                     (fun decoded =>
                        negb (existsb
                                (fun prefix => WikiMapper.contains prefix decoded)
                                WikiMapper.special_prefixes))
                     (map unquote links))).
  { unfold WikiMapper.clean_links. rewrite clean_links_fold. reflexivity. }
  rewrite E in Hin. apply in_map_iff in Hin. destruct Hin as [d [<- Hd]].
  apply filter_In in Hd. destruct Hd as [Hd Hkeep].
  apply in_map_iff in Hd. destruct Hd as [link [<- Hlink]].
  split; [intros c; apply replace_underscores_none|].
  split.
  - intros p Hp. rewrite contains_replace by (apply special_prefixes_plain; exact Hp).
    apply negb_true_iff in Hkeep.
    destruct (WikiMapper.contains p (unquote link)) eqn:F; [|reflexivity].
    assert (X : existsb (fun prefix => WikiMapper.contains prefix (unquote link))
                        WikiMapper.special_prefixes = true)
      by (apply existsb_exists; exists p; tauto).
    congruence.
  - split; [exists link; tauto | exact E].
Qed.

Lemma cleaned_links_are_plain_titles_witness :
  WikiMapper.contains "Help:" "Apple pie" = false.
Proof.
  apply (proj1 (proj2 (cleaned_links_are_plain_titles (fun s => s)
                         ["Help:Contents"; "Apple_pie"; "File:Pie.png"]
                         "Apple pie" (or_introl eq_refl)))).
  simpl. tauto.
Defined.

Example clean_links_run :
  WikiMapper.clean_links (fun s => s)
    ["Help:Contents"; "Apple_pie"; "A_File:x"; "Banana"; "Apple_pie"]
  = ["Apple pie"; "Banana"; "Apple pie"].
Proof. reflexivity. Qed.

(** ** The crawl never touches the set of articles *)

Section FixedArticles.

Variable fetch : title -> option (list title).
Variable db_fault : title -> option nat.
Variable now : Z.

Lemma save_existing_keys fail_at t tos db :
  title_exists t db = true ->
  map row_key (articles (WikiMapper.save_article_links fail_at now t tos db))
  = map row_key (articles db).
Proof.
  intro Hex.
  destruct (save_cases fail_at now t tos db) as [-> | ->]; [reflexivity|].
  destruct (select_id_exists _ _ Hex) as [i Hi].
  rewrite (saved_existing_articles now t tos db i Hi), map_map.
  apply map_ext. intro a. destruct (article_id a =? i); reflexivity.
Qed.

Lemma keys_titles s s' :
  map row_key (articles s') = map row_key (articles s) ->
  map article_title (articles s') = map article_title (articles s).
Proof.
  intro E. apply (f_equal (map (fun k : Z * title * Z => snd (fst k)))) in E.
  rewrite !map_map in E. exact E.
Qed.

Lemma batch_keeps_keys batch :
  forall db,
    (forall t, In t batch -> title_exists t db = true) ->
    map row_key
      (articles (WikiMapper.process_batch fetch db_fault now batch db))
    = map row_key (articles db).
Proof.
  induction batch as [|x batch IH]; intros db Hex; simpl; [reflexivity|].
  assert (Hx : title_exists x db = true) by (apply Hex; left; reflexivity).
  pose proof (save_existing_keys (db_fault x) x
                (WikiMapper.get_article_links fetch x) db Hx) as E.
  rewrite IH; [exact E|].
  intros t Ht. apply (title_exists_same_titles t db).
  - apply keys_titles. exact E.
  - apply Hex. right. exact Ht.
Qed.

Lemma run_keeps_keys fuel batch_size :
  forall db,
    map row_key
      (articles
         (final (WikiMapper.batch_run fetch db_fault now fuel batch_size db)))
    = map row_key (articles db).
Proof.
  induction fuel as [|fuel IH]; intro db; simpl; [reflexivity|].
  destruct (WikiMapper.get_next_unprocessed_articles batch_size db)
    as [[|x batch]|] eqn:E; simpl; try reflexivity.
  rewrite IH. apply (batch_keeps_keys (x :: batch)).
  intros t Ht. apply pending_exists.
  exact (batch_titles_pending _ _ _ E t Ht).
Qed.

End FixedArticles.

(** X19: [batch_run] never adds, removes or reorders an article row and never
    changes an id, a title or a [last_updated]: whatever the fetcher
    returns (link targets get no row), whatever fails, for every batch size
    and every number of passes, the store it stops with has the same rows
    in these three columns. *)
Theorem batch_run_keeps_the_articles
    (fetch : title -> option (list title)) (db_fault : title -> option nat)
    (now : Z) (fuel : nat) (batch_size : Z) (db : store) :
  let db' :=
    final (WikiMapper.batch_run fetch db_fault now fuel batch_size db) in
  map row_key (articles db') = map row_key (articles db)
  /\ WikiMapper.total_articles (WikiMapper.get_stats db')
     = WikiMapper.total_articles (WikiMapper.get_stats db).
Proof.
  intro db'.
  assert (E : map row_key (articles db') = map row_key (articles db))
    by apply run_keeps_keys.
  split; [exact E|].
  simpl. unfold count_articles.
  apply (f_equal (@List.length _)) in E. rewrite !length_map in E.
  rewrite E. reflexivity.
Qed.
